(** * Bayesian colocalisation over overlapping credible sets

    A shallow embedding of [src/coloc.py] and [src/overlaps.py].

    Both files build Spark column expressions; what is embedded here is the
    value those expressions take on one row, and the rows a DataFrame
    pipeline keeps.  Conventions:

    - a nullable column cell is an [option]: [None] is SQL NULL;
    - a [DoubleType] cell holds a real number ([R]); the module [IEEE]
      holds [src/coloc.py] a second time, on doubles that may be NaN or an
      infinity, that overflow and underflow, and whose sums lose a term
      that is too small: what depends on the range or on the precision of
      doubles is stated there;
    - an [ArrayType] cell is a [list] of nullable cells, a [MapType] cell is
      an association list in entry order (Spark maps are ordered arrays of
      entries, and [map_values] exposes that order);
    - a DataFrame is the [list] of its rows, in a fixed order. *)

From Stdlib Require Import Reals Lra Psatz List String Ascii Bool Arith ZArith Lia.
Import ListNotations.


Open Scope R_scope.

(** ** The [pyspark.sql.functions] the sources call *)

Module F.

(** [F.lit] of a Python float. *)
Definition lit (x : R) : option R := Some x.

(** Arithmetic on columns is NULL as soon as one operand is. *)
Definition lift2 (op : R -> R -> R) (a b : option R) : option R :=
  match a, b with
  | Some x, Some y => Some (op x y)
  | _, _ => None
  end.

Definition add : option R -> option R -> option R := lift2 Rplus.
Definition sub : option R -> option R -> option R := lift2 Rminus.

(** Division gives NULL on a zero divisor. *)
Definition div (a b : option R) : option R :=
  match a, b with
  | Some x, Some y => if Req_dec_T y 0 then None else Some (x / y)
  | _, _ => None
  end.

Definition exp (c : option R) : option R := option_map Rtrigo_def.exp c.

(** [F.log] is the natural logarithm; Spark returns NULL at and below the
    asymptote instead of an infinity or a NaN. *)
Definition log (c : option R) : option R :=
  match c with
  | Some x => if Rlt_dec 0 x then Some (ln x) else None
  | None => None
  end.

Definition log2 (c : option R) : option R :=
  match c with
  | Some x => if Rlt_dec 0 x then Some (ln x / ln 2) else None
  | None => None
  end.

(** The larger of two cells, a NULL being skipped. *)
Definition max_skip_null (a b : option R) : option R :=
  match a, b with
  | None, _ => b
  | _, None => a
  | Some x, Some y => Some (Rmax x y)
  end.

(** [F.greatest] over two columns skips NULLs. *)
Definition greatest (a b : option R) : option R := max_skip_null a b.

(** [F.array_max] skips NULL elements and is NULL when nothing is left. *)
Definition array_max (a : list (option R)) : option R :=
  fold_left max_skip_null a None.

Definition transform {A B : Type} (a : list A) (f : A -> B) : list B :=
  map f a.

Definition aggregate {A B : Type} (a : list A) (zero : B)
           (merge : B -> A -> B) : B :=
  fold_left merge a zero.

(** [arrays_zip] pads the shorter array with NULLs. *)
Fixpoint arrays_zip (l r : list (option R)) : list (option R * option R) :=
  match l with
  | [] => map (fun y => (None, y)) r
  | x :: l' =>
      match r with
      | [] => (x, None) :: arrays_zip l' []
      | y :: r' => (x, y) :: arrays_zip l' r'
      end
  end.

(** [getItem] on an array is NULL out of range. *)
Definition getItem (a : list (option R)) (i : nat) : option R :=
  nth i a None.

(** [col1 != col2]: NULL when an operand is NULL. *)
Definition neq (a b : option R) : option bool :=
  match a, b with
  | Some x, Some y => Some (if Req_dec_T x y then false else true)
  | _, _ => None
  end.

(** [DataFrame.filter] keeps a row only when the condition is true; a
    NULL condition drops it. *)
Definition holds (c : option bool) : bool :=
  match c with
  | Some true => true
  | _ => false
  end.

End F.

(** ** Rows *)

(** The [left_*] (or [right_*]) columns of one side of a comparison:
    [idCols] followed by [metadataCols]. *)
Record SideCols : Type := mkSideCols {
  studyKey : string;
  lead_variant_id : option string;
  type : option string;
  study_id : option string;
  phenotype_id : option string;
  bio_feature : option string;
  lead_chrom : option string;
  lead_pos : option Z;
  lead_ref : option string;
  lead_alt : option string
}.

(** A row of the DataFrame [findOverlappingSignals] returns and
    [colocalisation] consumes. *)
Record OverlapRow : Type := mkOverlapRow {
  left_cols : SideCols;
  right_cols : SideCols;
  left_logABF : list (option R);
  right_logABF : list (option R)
}.

(** A row of the DataFrame [colocalisation] returns. *)
Record ColocRow : Type := mkColocRow {
  coloc_left : SideCols;
  coloc_right : SideCols;
  coloc_h0 : option R;
  coloc_h1 : option R;
  coloc_h2 : option R;
  coloc_h3 : option R;
  coloc_h4 : option R;
  coloc_h4_h3 : option R;
  coloc_log2_h4_h3 : option R
}.

(** ** [src/coloc.py] *)

Module coloc.

Definition logsum (logABF : list (option R)) : option R :=
  let themax := F.array_max logABF in
  let expVector := F.transform logABF (fun c => F.exp (F.sub c themax)) in
  let summedval := F.aggregate expVector (F.lit 0) (fun acc x => F.add acc x) in
  let result := F.add themax (F.log summedval) in
  result.

Definition posteriors (allABF : list (option R)) : list (option R) :=
  let theLogsum := logsum allABF in
  let diff := F.transform allABF (fun c => F.exp (F.sub c theLogsum)) in
  diff.

(** The columns [colocalisation] adds, each as a function of the row and
    of the priors. *)
Section Columns.
Variables priorc1 priorc2 priorc12 : R.
Variable row : OverlapRow.

Definition sum_logABF : list (option R) :=
  F.transform (F.arrays_zip (left_logABF row) (right_logABF row))
              (fun x => F.add (fst x) (snd x)).
Definition logsum1 : option R := logsum (left_logABF row).
Definition logsum2 : option R := logsum (right_logABF row).
Definition logsum12 : option R := logsum sum_logABF.

Definition lH0abf : option R := F.lit 0.
Definition lH1abf : option R := F.add (F.log (F.lit priorc1)) logsum1.
Definition lH2abf : option R := F.add (F.log (F.lit priorc2)) logsum2.

Definition sumlogsum : option R := F.add logsum1 logsum2.
(** The condition of the [filter] in the middle of the chain. *)
Definition not_degenerate : bool := F.holds (F.neq sumlogsum logsum12).

Definition max : option R := F.greatest sumlogsum logsum12.
Definition logdiff : option R :=
  F.add max (F.log (F.sub (F.exp (F.sub sumlogsum max))
                          (F.exp (F.sub logsum12 max)))).
Definition lH3abf : option R :=
  F.add (F.add (F.log (F.lit priorc1)) (F.log (F.lit priorc2))) logdiff.
Definition lH4abf : option R := F.add (F.log (F.lit priorc12)) logsum12.

Definition allABF : list (option R) :=
  [lH0abf; lH1abf; lH2abf; lH3abf; lH4abf].

(** What is left of a row that passed the filter, after the last
    [drop]. *)
Definition result_row : ColocRow :=
  let posteriors := posteriors allABF in
  let h3 := F.getItem posteriors 3 in
  let h4 := F.getItem posteriors 4 in
  let h4_h3 := F.div h4 h3 in
  {| coloc_left := left_cols row;
     coloc_right := right_cols row;
     coloc_h0 := F.getItem posteriors 0;
     coloc_h1 := F.getItem posteriors 1;
     coloc_h2 := F.getItem posteriors 2;
     coloc_h3 := h3;
     coloc_h4 := h4;
     coloc_h4_h3 := h4_h3;
     coloc_log2_h4_h3 := F.log2 h4_h3 |}.
End Columns.

Definition colocalisation (overlappingSignals : list OverlapRow)
           (priorc1 priorc2 priorc12 : R) : list ColocRow :=
  map (result_row priorc1 priorc2 priorc12)
      (filter not_degenerate overlappingSignals).

End coloc.

(** ** More of Spark: strings, three-valued conditions, maps *)

Module SQL.

Open Scope string_scope.

(** Comparisons of nullable strings are NULL when an operand is. *)
Definition eq (a b : option string) : option bool :=
  match a, b with
  | Some x, Some y => Some (x =? y)
  | _, _ => None
  end.

Definition neq (a b : option string) : option bool :=
  option_map negb (eq a b).

(** [a > b] on two non-null strings: byte-wise lexicographic order. *)
Definition gt (a b : string) : option bool := Some (String.ltb b a).

(** Kleene disjunction and conjunction. *)
Definition or3 (a b : option bool) : option bool :=
  match a, b with
  | Some true, _ | _, Some true => Some true
  | Some false, Some false => Some false
  | _, _ => None
  end.

Definition and3 (a b : option bool) : option bool :=
  match a, b with
  | Some false, _ | _, Some false => Some false
  | Some true, Some true => Some true
  | _, _ => None
  end.

(** Grouping, partitioning and [dropDuplicates] treat two NULLs as the
    same key. *)
Definition same (a b : option string) : bool :=
  match a, b with
  | Some x, Some y => x =? y
  | None, None => true
  | _, _ => false
  end.

(** [concat_ws] skips NULL arguments. *)
Fixpoint non_null (l : list (option string)) : list string :=
  match l with
  | [] => []
  | Some s :: l' => s :: non_null l'
  | None :: l' => non_null l'
  end.

Definition concat_ws (sep : string) (cols : list (option string)) : string :=
  String.concat sep (non_null cols).

Definition coalesce (v d : option R) : option R :=
  match v with
  | Some x => Some x
  | None => d
  end.

(** A [MapType] cell: its entries, in order. *)
Definition smap : Type := list (string * option R).

Definition map_keys (m : smap) : list string := map fst m.
Definition map_values (m : smap) : list (option R) := map snd m.

Definition has_key (m : smap) (k : string) : bool :=
  existsb (fun e => fst e =? k) m.

(** The value under [k], NULL when [k] is not a key. *)
Definition get (m : smap) (k : string) : option R :=
  match find (fun e => fst e =? k) m with
  | Some e => snd e
  | None => None
  end.

(** Overwrites the value of an existing key, in place. *)
Fixpoint put (m : smap) (k : string) (v : option R) : smap :=
  match m with
  | [] => [(k, v)]
  | e :: m' => if fst e =? k then (k, v) :: m' else e :: put m' k v
  end.

(** [spark.sql.mapKeyDedupPolicy] *)
Inductive MapKeyDedupPolicy : Type := EXCEPTION | LAST_WIN.

(** The map builder behind [map_from_entries]: a NULL key is an error, and
    so is a repeated key unless the policy lets the last value win. *)
Fixpoint build_map (policy : MapKeyDedupPolicy)
         (entries : list (option string * option R)) (acc : smap)
  : option smap :=
  match entries with
  | [] => Some acc
  | (None, _) :: _ => None
  | (Some k, v) :: rest =>
      if has_key acc k then
        match policy with
        | EXCEPTION => None
        | LAST_WIN => build_map policy rest (put acc k v)
        end
      else build_map policy rest (acc ++ [(k, v)])%list
  end.

Definition map_from_entries (policy : MapKeyDedupPolicy)
           (entries : list (option string * option R)) : option smap :=
  build_map policy entries [].

(** The first occurrence of every element, in order. *)
Fixpoint distinct (l : list string) : list string :=
  match l with
  | [] => []
  | x :: l' => x :: filter (fun y => negb (y =? x)) (distinct l')
  end.

(** [map_zip_with]: the keys of the first map, then the keys only the
    second has; the function sees NULL for a map without the key. *)
Definition map_zip_with (m1 m2 : smap)
           (f : string -> option R -> option R -> option R) : smap :=
  map (fun k => (k, f k (get m1 k) (get m2 k)))
      (distinct (map_keys m1 ++ map_keys m2)%list).

(** [dropDuplicates] on a subset of columns: one row per key. *)
Fixpoint dropDuplicates {A K : Type} (same_key : K -> K -> bool)
         (key : A -> K) (rows : list A) : list A :=
  match rows with
  | [] => []
  | r :: rows' =>
      r :: filter (fun r' => negb (same_key (key r') (key r)))
                  (dropDuplicates same_key key rows')
  end.

(** All or nothing: the job fails as soon as one row does. *)
Fixpoint all_rows {A B : Type} (f : A -> option B) (rows : list A)
  : option (list B) :=
  match rows with
  | [] => Some []
  | r :: rows' =>
      match f r, all_rows f rows' with
      | Some b, Some bs => Some (b :: bs)
      | _, _ => None
      end
  end.

End SQL.

(** ** [src/overlaps.py] *)

Module overlaps.

Import SQL.
Open Scope string_scope.

(** A record of the credible-set parquet files. *)
Module Parquet.
Record row : Type := mkrow {
  type : option string;
  study_id : option string;
  phenotype_id : option string;
  bio_feature : option string;
  lead_chrom : option string;
  lead_pos : option Z;
  lead_ref : option string;
  lead_alt : option string;
  lead_variant_id : option string;
  tag_variant_id : option string;
  logABF : option R
}.
End Parquet.

(** What the function uses of its session: the files it can read and one
    configuration entry. *)
Record SparkSession : Type := mkSparkSession {
  read_parquet : string -> list Parquet.row;
  mapKeyDedupPolicy : MapKeyDedupPolicy
}.

(** The three [idCols] of a side. *)
Definition ids : Type := (string * option string * option string)%type.

Definition idCols (c : SideCols) : ids :=
  (studyKey c, lead_variant_id c, type c).

Definition same_ids (a b : ids) : bool :=
  let '(k1, l1, t1) := a in
  let '(k2, l2, t2) := b in
  (k1 =? k2) && same l1 l2 && same t1 t2.

(** The columns [select]ed into [credSet], next to [tag_variant_id] and
    [all_tags]. *)
Definition side_cols (r : Parquet.row) : SideCols :=
  {| studyKey :=
       concat_ws "_" [Parquet.type r; Parquet.study_id r;
                      Parquet.phenotype_id r; Parquet.bio_feature r];
     lead_variant_id := Parquet.lead_variant_id r;
     type := Parquet.type r;
     study_id := Parquet.study_id r;
     phenotype_id := Parquet.phenotype_id r;
     bio_feature := Parquet.bio_feature r;
     lead_chrom := Parquet.lead_chrom r;
     lead_pos := Parquet.lead_pos r;
     lead_ref := Parquet.lead_ref r;
     lead_alt := Parquet.lead_alt r |}.

Definition isNotNull {A : Type} (c : option A) : bool :=
  match c with
  | Some _ => true
  | None => false
  end.

(** A row of [credSet]. *)
Record CredSetRow : Type := mkCredSetRow {
  cols : SideCols;
  tag_variant_id : option string;
  all_tags : smap
}.

(** [collect_list(struct(tag_variant_id, logABF)).over(wind1)] at a row
    with identity [i]: the structs of the rows of its partition. *)
Definition collect_list_over (rows : list Parquet.row) (i : ids)
  : list (option string * option R) :=
  map (fun r => (Parquet.tag_variant_id r, Parquet.logABF r))
      (filter (fun r => same_ids (idCols (side_cols r)) i) rows).

Definition credSet (spark : SparkSession) (credSetPath : string)
  : option (list CredSetRow) :=
  let rows :=
    filter (fun r => isNotNull (Parquet.logABF r))
           (read_parquet spark credSetPath) in
  all_rows
    (fun r =>
       option_map
         (fun tags =>
            {| cols := side_cols r;
               tag_variant_id := Parquet.tag_variant_id r;
               all_tags := tags |})
         (map_from_entries (mapKeyDedupPolicy spark)
            (collect_list_over rows (idCols (side_cols r)))))
    rows.

(** The two [on] conditions of the join, taken together. *)
Definition join_on (left right : CredSetRow) : option bool :=
  and3 (eq (tag_variant_id left) (tag_variant_id right))
       (or3 (neq (type (cols right)) (Some "gwas"))
            (gt (studyKey (cols left)) (studyKey (cols right)))).

Definition inner_join (lefts rights : list CredSetRow)
  : list (CredSetRow * CredSetRow) :=
  flat_map
    (fun l =>
       map (fun r => (l, r))
           (filter (fun r => F.holds (join_on l r)) rights))
    lefts.

(** A row of [overlappingPeaks]. *)
Record PeakRow : Type := mkPeakRow {
  peak_left : SideCols;
  left_all_tags : smap;
  peak_right : SideCols;
  right_all_tags : smap
}.

Definition peak_key (p : PeakRow) : ids * ids :=
  (idCols (peak_left p), idCols (peak_right p)).

Definition same_peak (a b : ids * ids) : bool :=
  same_ids (fst a) (fst b) && same_ids (snd a) (snd b).

Definition overlappingPeaks (credSet : list CredSetRow) : list PeakRow :=
  let left :=
    filter (fun r => F.holds (eq (type (cols r)) (Some "gwas"))) credSet in
  let joined := inner_join left credSet in
  let renamed :=
    map (fun lr =>
           {| peak_left := cols (fst lr);
              left_all_tags := all_tags (fst lr);
              peak_right := cols (snd lr);
              right_all_tags := all_tags (snd lr) |})
        joined in
  dropDuplicates same_peak peak_key renamed.

Definition overlappingPeaksWithArrays (peaks : list PeakRow)
  : list OverlapRow :=
  map (fun p =>
         {| left_cols := peak_left p;
            right_cols := peak_right p;
            left_logABF :=
              map_values
                (map_zip_with (left_all_tags p) (right_all_tags p)
                   (fun k v1 v2 => coalesce v1 (F.lit 0)));
            right_logABF :=
              map_values
                (map_zip_with (left_all_tags p) (right_all_tags p)
                   (fun k v1 v2 => coalesce v2 (F.lit 0))) |})
      peaks.

(** [None] when the job fails while building a map of tags. *)
Definition findOverlappingSignals (spark : SparkSession)
           (credSetPath : string) : option (list OverlapRow) :=
  option_map
    (fun cs => overlappingPeaksWithArrays (overlappingPeaks cs))
    (credSet spark credSetPath).

End overlaps.

(** ** The quantities the specification names *)

Definition Rsum (l : list R) : R := fold_right Rplus 0 l.

(** The largest element of [x :: v]. *)
Definition Rmax_list (x : R) (v : list R) : R := fold_left Rmax v x.

(** LogSumExp as the specification defines it: [log (Σ exp v_i)]. *)
Definition LogSumExp (v : list R) : R := ln (Rsum (map exp v)).

(** Pointwise sum of two vectors of the same length. *)
Fixpoint pointwise_sum (l r : list R) : list R :=
  match l, r with
  | x :: l', y :: r' => (x + y) :: pointwise_sum l' r'
  | _, _ => []
  end.

(** An array without NULL elements. *)
Definition cells (v : list R) : list (option R) := map Some v.

(** ** Credible sets *)

Section CredibleSets.
Import SQL.
Import overlaps.

(** The records that make up the credible set with identity [i]: those
    with a [logABF], grouped by [idCols]. *)
Definition credible_set (spark : SparkSession) (credSetPath : string)
           (i : ids) : list Parquet.row :=
  filter (fun r => same_ids (idCols (side_cols r)) i)
         (filter (fun r => isNotNull (Parquet.logABF r))
                 (read_parquet spark credSetPath)).

(** Its entries, as the window collects them. *)
Definition credible_set_entries (spark : SparkSession) (credSetPath : string)
           (i : ids) : list (option string * option R) :=
  map (fun r => (Parquet.tag_variant_id r, Parquet.logABF r))
      (credible_set spark credSetPath i).

(** [k] is a tag variant of the credible set with identity [i]. *)
Definition is_tag_of (spark : SparkSession) (credSetPath : string)
           (i : ids) (k : string) : Prop :=
  exists r, In r (credible_set spark credSetPath i) /\
            Parquet.tag_variant_id r = Some k.

(** The value of tag [k] in the map [m], 0 for a tag the map lacks. *)
Definition log_abf_or_zero (m : smap) (k : string) : option R :=
  match get m k with
  | Some x => Some x
  | None => Some 0
  end.

End CredibleSets.

(** The [left_*] and [right_*] columns an output row carries over. *)
Definition carried_over (out : ColocRow) : SideCols * SideCols :=
  (coloc_left out, coloc_right out).

Definition compared (row : OverlapRow) : SideCols * SideCols :=
  (left_cols row, right_cols row).

(** The five posteriors of an output row. *)
Definition coloc_h (out : ColocRow) : list (option R) :=
  [coloc_h0 out; coloc_h1 out; coloc_h2 out; coloc_h3 out; coloc_h4 out].

(** ** Further quantities *)

(** A session that sees the same files without their records that have no
    [logABF]. *)
Definition without_null_logABF (spark : overlaps.SparkSession)
  : overlaps.SparkSession :=
  {| overlaps.read_parquet := fun path =>
       filter (fun r => overlaps.isNotNull (overlaps.Parquet.logABF r))
              (overlaps.read_parquet spark path);
     overlaps.mapKeyDedupPolicy := overlaps.mapKeyDedupPolicy spark |}.

(** The credible sets with identities [i] and [j] hold two records that
    the join puts together: a GWAS record and a record with the same tag
    variant that is no GWAS record or has the smaller [studyKey]. *)
Definition eligible (spark : overlaps.SparkSession) (credSetPath : string)
           (i j : overlaps.ids) : Prop :=
  exists (rl rr : overlaps.Parquet.row) (t : string),
    In rl (credible_set spark credSetPath i) /\
    In rr (credible_set spark credSetPath j) /\
    overlaps.Parquet.type rl = Some "gwas"%string /\
    overlaps.Parquet.tag_variant_id rl = Some t /\
    overlaps.Parquet.tag_variant_id rr = Some t /\
    ((exists ty, overlaps.Parquet.type rr = Some ty /\ ty <> "gwas"%string) \/
     String.ltb (studyKey (overlaps.side_cols rr))
                (studyKey (overlaps.side_cols rl)) = true).

(** ** Sample inputs *)

Definition sample_side (kind study lead : string) : SideCols :=
  {| studyKey := String.concat "_" [kind; study];
     lead_variant_id := Some lead;
     type := Some kind;
     study_id := Some study;
     phenotype_id := None;
     bio_feature := None;
     lead_chrom := Some "1"%string;
     lead_pos := None;
     lead_ref := None;
     lead_alt := None |}.

(** A comparison of two GWAS signals with the given aligned vectors. *)
Definition sample_pair (l r : list R) : OverlapRow :=
  {| left_cols := sample_side "gwas" "GCST2" "1_1000_A_G";
     right_cols := sample_side "gwas" "GCST1" "1_2000_C_T";
     left_logABF := cells l;
     right_logABF := cells r |}.

(** One shared tag variant, with strong evidence on both sides. *)
Definition pair_5_5 : OverlapRow := sample_pair [5] [5].

(** Two tag variants without evidence on either side. *)
Definition pair_flat : OverlapRow := sample_pair [0; 0] [0; 0].

(** A pair whose vectors are empty. *)
Definition pair_empty : OverlapRow := sample_pair [] [].

(** Three GWAS records with a [logABF] and one without: study GCST2 has
    a credible set of two tag variants, study GCST1 a credible set of one,
    which the two share. *)
Definition sample_record (study lead tag : string) (logABF : option R)
  : overlaps.Parquet.row :=
  {| overlaps.Parquet.type := Some "gwas"%string;
     overlaps.Parquet.study_id := Some study;
     overlaps.Parquet.phenotype_id := None;
     overlaps.Parquet.bio_feature := None;
     overlaps.Parquet.lead_chrom := Some "1"%string;
     overlaps.Parquet.lead_pos := None;
     overlaps.Parquet.lead_ref := None;
     overlaps.Parquet.lead_alt := None;
     overlaps.Parquet.lead_variant_id := Some lead;
     overlaps.Parquet.tag_variant_id := Some tag;
     overlaps.Parquet.logABF := logABF |}.

Definition sample_session : overlaps.SparkSession :=
  {| overlaps.read_parquet := fun _ =>
       [sample_record "GCST2" "1_1000_A_G" "1_1000_A_G" (Some 3);
        sample_record "GCST2" "1_1000_A_G" "1_1100_C_T" (Some 1);
        sample_record "GCST1" "1_1100_C_T" "1_1100_C_T" (Some 2);
        sample_record "GCST1" "1_1100_C_T" "1_1200_G_A" None];
     overlaps.mapKeyDedupPolicy := SQL.EXCEPTION |}.

(** The one comparison these records give. *)
Definition sample_overlap : OverlapRow :=
  {| left_cols :=
       overlaps.side_cols
         (sample_record "GCST2" "1_1000_A_G" "1_1000_A_G" (Some 3));
     right_cols :=
       overlaps.side_cols
         (sample_record "GCST1" "1_1100_C_T" "1_1100_C_T" (Some 2));
     left_logABF := [Some 3; Some 1];
     right_logABF := [Some 0; Some 2] |}.

(** A molecular-trait record whose [phenotype_id] and [bio_feature] are
    given. *)
Definition molecular_record (phenotype bio : option string)
  : overlaps.Parquet.row :=
  {| overlaps.Parquet.type := Some "eqtl"%string;
     overlaps.Parquet.study_id := Some "GTEX"%string;
     overlaps.Parquet.phenotype_id := phenotype;
     overlaps.Parquet.bio_feature := bio;
     overlaps.Parquet.lead_chrom := Some "1"%string;
     overlaps.Parquet.lead_pos := None;
     overlaps.Parquet.lead_ref := None;
     overlaps.Parquet.lead_alt := None;
     overlaps.Parquet.lead_variant_id := Some "1_1000_A_G"%string;
     overlaps.Parquet.tag_variant_id := Some "1_1000_A_G"%string;
     overlaps.Parquet.logABF := Some 1 |}.

(** A pair with a NULL in its left vector. *)
Definition pair_with_null : OverlapRow :=
  {| left_cols := sample_side "gwas" "GCST2" "1_1000_A_G";
     right_cols := sample_side "gwas" "GCST1" "1_2000_C_T";
     left_logABF := [Some 1; None];
     right_logABF := [Some 1; Some 2] |}.

(** The sample session, with the policy that lets the last value win. *)
Definition sample_session_last_win : overlaps.SparkSession :=
  {| overlaps.read_parquet := overlaps.read_parquet sample_session;
     overlaps.mapKeyDedupPolicy := SQL.LAST_WIN |}.

(** ** Doubles with their range *)

(** A double that is a number, an infinity or NaN. *)
Inductive xdouble : Type :=
| Fin (x : R)
| PosInf
| NegInf
| NaN.

(** [src/coloc.py] once more, on doubles that overflow to an infinity,
    underflow to zero, propagate NaN and lose a term that is too small
    next to the other.  What stays out is the rounding of the other
    results that are within the range. *)
Module IEEE.

(** The largest double. *)
Definition max_double : R := IZR (2 ^ 1024 - 2 ^ 971).

(** Half a unit in the last place above the largest double: an exact
    result from here on rounds to an infinity. *)
Definition overflow : R := IZR (2 ^ 1024 - 2 ^ 970).

(** Half the smallest double, 2^-1074: an exact result down to here
    rounds to zero. *)
Definition tiny : R := / IZR (2 ^ 1075).

(** The double an operation returns when its exact result is [x], as far
    as the range goes. *)
Definition range (x : R) : xdouble :=
  if Rle_dec overflow x then PosInf
  else if Rle_dec x (- overflow) then NegInf
  else if Rle_dec (Rabs x) tiny then Fin 0
  else Fin x.

(** The relative size, 2^-55, under which a number added to another is
    lost: it is less than a quarter of a unit in the last place of the
    other. *)
Definition absorbed : R := / IZR (2 ^ 55).

(** The double that the sum of two numbers is: the one of them that
    absorbs the other, else the exact sum as far as the range goes. *)
Definition sum_of (x y : R) : xdouble :=
  if Rle_dec (Rabs y) (Rabs x * absorbed) then Fin x
  else if Rle_dec (Rabs x) (Rabs y * absorbed) then Fin y
  else range (x + y).

Definition xadd (a b : xdouble) : xdouble :=
  match a, b with
  | NaN, _ | _, NaN => NaN
  | PosInf, NegInf | NegInf, PosInf => NaN
  | PosInf, _ | _, PosInf => PosInf
  | NegInf, _ | _, NegInf => NegInf
  | Fin x, Fin y => sum_of x y
  end.

Definition xsub (a b : xdouble) : xdouble :=
  match a, b with
  | NaN, _ | _, NaN => NaN
  | PosInf, PosInf | NegInf, NegInf => NaN
  | PosInf, _ | _, NegInf => PosInf
  | NegInf, _ | _, PosInf => NegInf
  | Fin x, Fin y => sum_of x (- y)
  end.

(** Division by a double that is not zero. *)
Definition xdiv (a b : xdouble) : xdouble :=
  match a, b with
  | NaN, _ | _, NaN => NaN
  | (PosInf | NegInf), (PosInf | NegInf) => NaN
  | PosInf, Fin y => if Rlt_dec 0 y then PosInf else NegInf
  | NegInf, Fin y => if Rlt_dec 0 y then NegInf else PosInf
  | Fin _, (PosInf | NegInf) => Fin 0
  | Fin x, Fin y => range (x / y)
  end.

Definition xexp (a : xdouble) : xdouble :=
  match a with
  | Fin x => range (exp x)
  | PosInf => PosInf
  | NegInf => Fin 0
  | NaN => NaN
  end.

(** The order of [array_max] and [greatest]: NaN is above every other
    double. *)
Definition xmax (a b : xdouble) : xdouble :=
  match a, b with
  | NaN, _ | _, NaN => NaN
  | PosInf, _ | _, PosInf => PosInf
  | NegInf, c | c, NegInf => c
  | Fin x, Fin y => Fin (Rmax x y)
  end.

(** Equality of doubles in Spark SQL: NaN is equal to NaN. *)
Definition xeq (a b : xdouble) : bool :=
  match a, b with
  | Fin x, Fin y => if Req_dec_T x y then true else false
  | PosInf, PosInf | NegInf, NegInf | NaN, NaN => true
  | _, _ => false
  end.

Module F.

Definition lit (x : R) : option xdouble := Some (Fin x).

Definition lift2 (op : xdouble -> xdouble -> xdouble)
           (a b : option xdouble) : option xdouble :=
  match a, b with
  | Some x, Some y => Some (op x y)
  | _, _ => None
  end.

Definition add : option xdouble -> option xdouble -> option xdouble :=
  lift2 xadd.
Definition sub : option xdouble -> option xdouble -> option xdouble :=
  lift2 xsub.

Definition div (a b : option xdouble) : option xdouble :=
  match a, b with
  | Some x, Some y => if xeq y (Fin 0) then None else Some (xdiv x y)
  | _, _ => None
  end.

Definition exp (c : option xdouble) : option xdouble := option_map xexp c.

(** NULL at and below zero; NaN is not below zero. *)
Definition log (c : option xdouble) : option xdouble :=
  match c with
  | Some (Fin x) => if Rlt_dec 0 x then Some (range (ln x)) else None
  | Some PosInf => Some PosInf
  | Some NegInf => None
  | Some NaN => Some NaN
  | None => None
  end.

Definition log2 (c : option xdouble) : option xdouble :=
  match c with
  | Some (Fin x) => if Rlt_dec 0 x then Some (range (ln x / ln 2)) else None
  | Some PosInf => Some PosInf
  | Some NegInf => None
  | Some NaN => Some NaN
  | None => None
  end.

Definition max_skip_null (a b : option xdouble) : option xdouble :=
  match a, b with
  | None, _ => b
  | _, None => a
  | Some x, Some y => Some (xmax x y)
  end.

Definition greatest (a b : option xdouble) : option xdouble :=
  max_skip_null a b.

Definition array_max (a : list (option xdouble)) : option xdouble :=
  fold_left max_skip_null a None.

Definition transform {A B : Type} (a : list A) (f : A -> B) : list B :=
  map f a.

Definition aggregate {A B : Type} (a : list A) (zero : B)
           (merge : B -> A -> B) : B :=
  fold_left merge a zero.

Fixpoint arrays_zip (l r : list (option xdouble))
  : list (option xdouble * option xdouble) :=
  match l with
  | [] => map (fun y => (None, y)) r
  | x :: l' =>
      match r with
      | [] => (x, None) :: arrays_zip l' []
      | y :: r' => (x, y) :: arrays_zip l' r'
      end
  end.

Definition getItem (a : list (option xdouble)) (i : nat) : option xdouble :=
  nth i a None.

Definition neq (a b : option xdouble) : option bool :=
  match a, b with
  | Some x, Some y => Some (negb (xeq x y))
  | _, _ => None
  end.

Definition holds (c : option bool) : bool :=
  match c with
  | Some true => true
  | _ => false
  end.

End F.

Record OverlapRow : Type := mkOverlapRow {
  left_cols : SideCols;
  right_cols : SideCols;
  left_logABF : list (option xdouble);
  right_logABF : list (option xdouble)
}.

Record ColocRow : Type := mkColocRow {
  coloc_left : SideCols;
  coloc_right : SideCols;
  coloc_h0 : option xdouble;
  coloc_h1 : option xdouble;
  coloc_h2 : option xdouble;
  coloc_h3 : option xdouble;
  coloc_h4 : option xdouble;
  coloc_h4_h3 : option xdouble;
  coloc_log2_h4_h3 : option xdouble
}.

Module coloc.

Definition logsum (logABF : list (option xdouble)) : option xdouble :=
  let themax := F.array_max logABF in
  let expVector := F.transform logABF (fun c => F.exp (F.sub c themax)) in
  let summedval := F.aggregate expVector (F.lit 0) (fun acc x => F.add acc x) in
  let result := F.add themax (F.log summedval) in
  result.

Definition posteriors (allABF : list (option xdouble))
  : list (option xdouble) :=
  let theLogsum := logsum allABF in
  let diff := F.transform allABF (fun c => F.exp (F.sub c theLogsum)) in
  diff.

Section Columns.
Variables priorc1 priorc2 priorc12 : R.
Variable row : OverlapRow.

Definition sum_logABF : list (option xdouble) :=
  F.transform (F.arrays_zip (left_logABF row) (right_logABF row))
              (fun x => F.add (fst x) (snd x)).
Definition logsum1 : option xdouble := logsum (left_logABF row).
Definition logsum2 : option xdouble := logsum (right_logABF row).
Definition logsum12 : option xdouble := logsum sum_logABF.

Definition lH0abf : option xdouble := F.lit 0.
Definition lH1abf : option xdouble := F.add (F.log (F.lit priorc1)) logsum1.
Definition lH2abf : option xdouble := F.add (F.log (F.lit priorc2)) logsum2.

Definition sumlogsum : option xdouble := F.add logsum1 logsum2.
Definition not_degenerate : bool := F.holds (F.neq sumlogsum logsum12).

Definition max : option xdouble := F.greatest sumlogsum logsum12.
Definition logdiff : option xdouble :=
  F.add max (F.log (F.sub (F.exp (F.sub sumlogsum max))
                          (F.exp (F.sub logsum12 max)))).
Definition lH3abf : option xdouble :=
  F.add (F.add (F.log (F.lit priorc1)) (F.log (F.lit priorc2))) logdiff.
Definition lH4abf : option xdouble := F.add (F.log (F.lit priorc12)) logsum12.

Definition allABF : list (option xdouble) :=
  [lH0abf; lH1abf; lH2abf; lH3abf; lH4abf].

Definition result_row : ColocRow :=
  let posteriors := posteriors allABF in
  let h3 := F.getItem posteriors 3 in
  let h4 := F.getItem posteriors 4 in
  let h4_h3 := F.div h4 h3 in
  {| coloc_left := left_cols row;
     coloc_right := right_cols row;
     coloc_h0 := F.getItem posteriors 0;
     coloc_h1 := F.getItem posteriors 1;
     coloc_h2 := F.getItem posteriors 2;
     coloc_h3 := h3;
     coloc_h4 := h4;
     coloc_h4_h3 := h4_h3;
     coloc_log2_h4_h3 := F.log2 h4_h3 |}.
End Columns.

Definition colocalisation (overlappingSignals : list OverlapRow)
           (priorc1 priorc2 priorc12 : R) : list ColocRow :=
  map (result_row priorc1 priorc2 priorc12)
      (filter not_degenerate overlappingSignals).

End coloc.

End IEEE.

(** A number that a double can hold, as far as the range goes: not above
    the largest double and, unless it is 0, above half the smallest. *)
Definition in_double_range (x : R) : Prop :=
  Rabs x <= IEEE.max_double /\ (x = 0 \/ IEEE.tiny < Rabs x).

(** The same for a double: any of them but +infinity and NaN. *)
Definition below_infinity (e : xdouble) : Prop :=
  match e with
  | Fin x => in_double_range x
  | NegInf => True
  | PosInf | NaN => False
  end.

(** An array of doubles that are numbers. *)
Definition doubles (v : list R) : list (option xdouble) :=
  map Some (map Fin v).

(** A comparison of two signals with the given vectors of doubles. *)
Definition sample_doubles (l r : list xdouble) : IEEE.OverlapRow :=
  {| IEEE.left_cols := sample_side "gwas" "GCST2" "1_1000_A_G";
     IEEE.right_cols := sample_side "gwas" "GCST1" "1_2000_C_T";
     IEEE.left_logABF := map Some l;
     IEEE.right_logABF := map Some r |}.

(** Five values, two of them far above the other three. *)
Definition five_large : list R := [IZR (10 ^ 17); IZR (10 ^ 17); 0; 0; 0].

(** One shared tag variant, with evidence so strong on both sides that
    the sum of the two is beyond the largest double. *)
Definition pair_overflowing : IEEE.OverlapRow :=
  sample_doubles [Fin (IZR (10 ^ 308))] [Fin (IZR (10 ^ 308))].

(** * Proofs *)

(** ** Sums, maxima and exponentials *)




Lemma Rsum_exp_pos (v : list R) : v <> [] -> 0 < Rsum (map exp v).
Proof.
  assert (Hnn : forall w, 0 <= Rsum (map exp w)).
  { induction w as [|x w IH]; simpl; [lra |].
    pose proof (exp_pos x). lra. }
  destruct v as [|x v]; [congruence | intros _; simpl].
  pose proof (exp_pos x). pose proof (Hnn v). lra.
Qed.

Lemma Rsum_exp_shift (v : list R) (m : R) :
  Rsum (map (fun x => exp (x - m)) v) = exp (- m) * Rsum (map exp v).
Proof.
  induction v as [|x v IH]; simpl.
  - lra.
  - rewrite IH. replace (x - m) with (x + - m) by lra.
    rewrite exp_plus. lra.
Qed.

Lemma ln_shifted_sum (v : list R) (m : R) :
  v <> [] ->
  m + ln (Rsum (map (fun x => exp (x - m)) v)) = LogSumExp v.
Proof.
  intro Hne. unfold LogSumExp. rewrite Rsum_exp_shift.
  rewrite ln_mult; [| apply exp_pos | now apply Rsum_exp_pos].
  rewrite ln_exp. lra.
Qed.

(** ** The column functions on arrays without NULL *)

Lemma fold_max_cells (v : list R) (a : R) :
  fold_left F.max_skip_null (cells v) (Some a) = Some (Rmax_list a v).
Proof.
  unfold Rmax_list. revert a.
  induction v as [|x v IH]; intro a; simpl; [reflexivity | apply IH].
Qed.

Lemma array_max_cells (x : R) (v : list R) :
  F.array_max (cells (x :: v)) = Some (Rmax_list x v).
Proof. unfold F.array_max. simpl. apply fold_max_cells. Qed.

Lemma aggregate_exp_cells (v : list R) (m a : R) :
  F.aggregate
    (F.transform (cells v) (fun c => F.exp (F.sub c (Some m))))
    (Some a) (fun acc x => F.add acc x)
  = Some (a + Rsum (map (fun x => exp (x - m)) v)).
Proof.
  unfold F.aggregate, F.transform. revert a.
  induction v as [|x v IH]; intro a; simpl.
  - f_equal. lra.
  - rewrite IH. f_equal. lra.
Qed.

Lemma log_pos (x : R) : 0 < x -> F.log (Some x) = Some (ln x).
Proof.
  intro H. unfold F.log. destruct (Rlt_dec 0 x); [reflexivity | contradiction].
Qed.

Lemma log_nonpos (x : R) : x <= 0 -> F.log (Some x) = None.
Proof.
  intro H. unfold F.log. destruct (Rlt_dec 0 x); [lra | reflexivity].
Qed.

(** [logsum] on a non-empty array without NULL, as the code computes it. *)
Lemma logsum_cells_shifted (x : R) (v : list R) :
  let m := Rmax_list x v in
  coloc.logsum (cells (x :: v))
  = Some (m + ln (Rsum (map (fun y => exp (y - m)) (x :: v)))).
Proof.
  intro m. unfold coloc.logsum.
  rewrite array_max_cells. fold m.
  unfold F.lit. rewrite aggregate_exp_cells.
  rewrite Rplus_0_l.
  rewrite log_pos.
  - reflexivity.
  - rewrite Rsum_exp_shift. apply Rmult_lt_0_compat.
    + apply exp_pos.
    + apply Rsum_exp_pos. discriminate.
Qed.

Lemma logsum_cells (v : list R) :
  v <> [] -> coloc.logsum (cells v) = Some (LogSumExp v).
Proof.
  destruct v as [|x v]; [congruence | intros _].
  rewrite logsum_cells_shifted. f_equal.
  apply ln_shifted_sum. discriminate.
Qed.


(** ** Posteriors *)

Lemma transform_exp_sub_cells (v : list R) (L : R) :
  F.transform (cells v) (fun c => F.exp (F.sub c (Some L)))
  = cells (map (fun x => exp (x - L)) v).
Proof.
  unfold F.transform, cells. rewrite !map_map. reflexivity.
Qed.

Lemma posteriors_cells (v : list R) :
  v <> [] ->
  coloc.posteriors (cells v)
  = cells (map (fun x => exp (x - LogSumExp v)) v).
Proof.
  intro Hne. unfold coloc.posteriors.
  rewrite (logsum_cells v Hne). apply transform_exp_sub_cells.
Qed.

Lemma posteriors_sum_one (v : list R) :
  v <> [] -> Rsum (map (fun x => exp (x - LogSumExp v)) v) = 1.
Proof.
  intro Hne. rewrite Rsum_exp_shift. unfold LogSumExp.
  pose proof (Rsum_exp_pos v Hne) as Hpos.
  rewrite exp_Ropp, exp_ln by exact Hpos.
  field. lra.
Qed.

Lemma Rsum_nonneg_member (l : list R) (p : R) :
  (forall q, In q l -> 0 <= q) -> In p l -> p <= Rsum l.
Proof.
  induction l as [|a l IH]; intros Hnn Hin; simpl in *; [contradiction |].
  assert (Hrest : 0 <= Rsum l).
  { clear IH Hin. induction l as [|b l IH]; simpl; [lra |].
    assert (0 <= b) by (apply Hnn; right; now left).
    assert (0 <= Rsum l) by (apply IH; intros q Hq; apply Hnn; simpl in *; tauto).
    lra. }
  destruct Hin as [-> | Hin].
  - lra.
  - assert (0 <= a) by (apply Hnn; now left).
    assert (p <= Rsum l) by (apply IH; [intros q Hq; apply Hnn; now right | exact Hin]).
    lra.
Qed.

Lemma posteriors_unit_interval (v : list R) (p : R) :
  In p (map (fun x => exp (x - LogSumExp v)) v) -> 0 <= p <= 1.
Proof.
  intro Hin.
  assert (Hne : v <> []) by (destruct v; [contradiction | discriminate]).
  assert (Hnn : forall q, In q (map (fun x => exp (x - LogSumExp v)) v) -> 0 <= q).
  { intros q Hq. apply in_map_iff in Hq as (x & <- & _).
    left. apply exp_pos. }
  split; [now apply Hnn |].
  rewrite <- (posteriors_sum_one v Hne). now apply Rsum_nonneg_member.
Qed.

(** ** The columns of [colocalisation] on aligned arrays without NULL *)

Lemma sum_logABF_cells (row : OverlapRow) (l r : list R) :
  left_logABF row = cells l -> right_logABF row = cells r ->
  List.length l = List.length r ->
  coloc.sum_logABF row = cells (pointwise_sum l r).
Proof.
  unfold coloc.sum_logABF, F.transform. intros -> ->. clear row.
  revert r. induction l as [|x l IH]; intros [|y r] Hlen;
    simpl in *; try discriminate; [reflexivity |].
  f_equal. apply IH. now injection Hlen.
Qed.

Lemma pointwise_sum_nil_iff (l r : list R) :
  List.length l = List.length r -> pointwise_sum l r = [] -> l = [].
Proof.
  destruct l, r; simpl; intros; try discriminate; reflexivity.
Qed.

Lemma Rsum_exp_nonneg (v : list R) : 0 <= Rsum (map exp v).
Proof.
  induction v as [|x v IH]; simpl; [lra |].
  pose proof (exp_pos x). lra.
Qed.

(** The mass of "the same variant for both traits" is part of the mass of
    "one variant for each trait". *)
Lemma joint_mass_le_product (l r : list R) :
  List.length l = List.length r ->
  Rsum (map exp (pointwise_sum l r))
  <= Rsum (map exp l) * Rsum (map exp r).
Proof.
  revert r. induction l as [|x l IH]; intros [|y r] Hlen;
    simpl in *; try discriminate; [lra |].
  injection Hlen as Hlen. specialize (IH r Hlen).
  rewrite exp_plus.
  pose proof (exp_pos x). pose proof (exp_pos y).
  pose proof (Rsum_exp_nonneg l). pose proof (Rsum_exp_nonneg r).
  nra.
Qed.

(** With two variants or more the inclusion is strict. *)
Lemma joint_mass_lt_product (l r : list R) :
  List.length l = List.length r -> (2 <= List.length l)%nat ->
  Rsum (map exp (pointwise_sum l r))
  < Rsum (map exp l) * Rsum (map exp r).
Proof.
  intros Hlen H2.
  destruct l as [|x l], r as [|y r]; simpl in *; try discriminate; try lia.
  injection Hlen as Hlen.
  pose proof (joint_mass_le_product l r Hlen) as Hle.
  assert (Hl : 0 < Rsum (map exp l)).
  { apply Rsum_exp_pos. destruct l; simpl in *; [lia | discriminate]. }
  rewrite exp_plus.
  pose proof (exp_pos x). pose proof (exp_pos y).
  pose proof (Rsum_exp_nonneg r).
  nra.
Qed.

Section AlignedRow.
Variable row : OverlapRow.
Variables l r : list R.
Hypothesis Hleft : left_logABF row = cells l.
Hypothesis Hright : right_logABF row = cells r.
Hypothesis Hlen : List.length l = List.length r.
Hypothesis Hne : l <> [].

Let r_ne : r <> [].
Proof. destruct l, r; simpl in *; congruence. Qed.

Let sum_ne : pointwise_sum l r <> [].
Proof. intro H. now apply Hne, (pointwise_sum_nil_iff l r). Qed.

Lemma logsum1_aligned : coloc.logsum1 row = Some (LogSumExp l).
Proof. unfold coloc.logsum1. rewrite Hleft. now apply logsum_cells. Qed.

Lemma logsum2_aligned : coloc.logsum2 row = Some (LogSumExp r).
Proof. unfold coloc.logsum2. rewrite Hright. now apply logsum_cells. Qed.

Lemma logsum12_aligned :
  coloc.logsum12 row = Some (LogSumExp (pointwise_sum l r)).
Proof.
  unfold coloc.logsum12.
  rewrite (sum_logABF_cells row l r Hleft Hright Hlen).
  now apply logsum_cells.
Qed.

Lemma sumlogsum_aligned :
  coloc.sumlogsum row = Some (LogSumExp l + LogSumExp r).
Proof.
  unfold coloc.sumlogsum. now rewrite logsum1_aligned, logsum2_aligned.
Qed.

Lemma logsum12_le_sumlogsum :
  LogSumExp (pointwise_sum l r) <= LogSumExp l + LogSumExp r.
Proof.
  unfold LogSumExp.
  pose proof (Rsum_exp_pos l Hne) as H1.
  pose proof (Rsum_exp_pos r r_ne) as H2.
  pose proof (Rsum_exp_pos _ sum_ne) as H12.
  rewrite <- ln_mult by assumption.
  destruct (joint_mass_le_product l r Hlen) as [Hlt | Heq].
  - left. now apply ln_increasing.
  - right. now rewrite Heq.
Qed.

Lemma logsum12_lt_sumlogsum :
  (2 <= List.length l)%nat ->
  LogSumExp (pointwise_sum l r) < LogSumExp l + LogSumExp r.
Proof.
  intro H2len. unfold LogSumExp.
  pose proof (Rsum_exp_pos l Hne) as H1.
  pose proof (Rsum_exp_pos r r_ne) as H2.
  pose proof (Rsum_exp_pos _ sum_ne) as H12.
  rewrite <- ln_mult by assumption.
  apply ln_increasing; [assumption |].
  now apply joint_mass_lt_product.
Qed.

Lemma not_degenerate_aligned :
  coloc.not_degenerate row = true <->
  LogSumExp l + LogSumExp r <> LogSumExp (pointwise_sum l r).
Proof.
  unfold coloc.not_degenerate.
  rewrite sumlogsum_aligned, logsum12_aligned. simpl.
  destruct (Req_dec_T _ _); split; intro H; congruence.
Qed.

Lemma not_degenerate_two_variants :
  (2 <= List.length l)%nat -> coloc.not_degenerate row = true.
Proof.
  intro H2. apply not_degenerate_aligned.
  pose proof (logsum12_lt_sumlogsum H2). lra.
Qed.

Lemma logdiff_aligned :
  coloc.not_degenerate row = true ->
  let s := LogSumExp l + LogSumExp r in
  let l12 := LogSumExp (pointwise_sum l r) in
  let M := Rmax s l12 in
  coloc.logdiff row = Some (M + ln (exp (s - M) - exp (l12 - M))).
Proof.
  intros Hnd s l12 M.
  apply not_degenerate_aligned in Hnd.
  pose proof logsum12_le_sumlogsum as Hle.
  assert (Hlt : l12 < s) by (unfold s, l12; lra).
  unfold coloc.logdiff, coloc.max.
  rewrite sumlogsum_aligned, logsum12_aligned.
  fold s l12. unfold F.greatest, F.max_skip_null. fold M.
  unfold F.sub, F.exp, F.lift2, option_map.
  rewrite log_pos; [reflexivity |].
  assert (HM : M = s) by (unfold M; apply Rmax_left; lra).
  rewrite HM. replace (s - s) with 0 by lra. rewrite exp_0.
  assert (exp (l12 - s) < exp 0) by (apply exp_increasing; lra).
  rewrite exp_0 in *. lra.
Qed.
End AlignedRow.

Lemma logsum_nil : coloc.logsum [] = None.
Proof. reflexivity. Qed.

Lemma not_degenerate_left_nonempty (row : OverlapRow) :
  coloc.not_degenerate row = true -> left_logABF row <> [].
Proof.
  intros Hnd Hnil.
  unfold coloc.not_degenerate, coloc.sumlogsum, coloc.logsum1 in Hnd.
  rewrite Hnil, logsum_nil in Hnd. discriminate.
Qed.

(** The five log Bayes factors of a row that passes the filter. *)
Lemma log_bayes_factors_aligned
        (row : OverlapRow) (l r : list R) (priorc1 priorc2 priorc12 : R)
        (Hleft : left_logABF row = cells l)
        (Hright : right_logABF row = cells r)
        (Hlen : List.length l = List.length r)
        (Hp1 : 0 < priorc1) (Hp2 : 0 < priorc2) (Hp12 : 0 < priorc12)
        (Hkept : coloc.not_degenerate row = true) :
  let logsum1 := LogSumExp l in
  let logsum2 := LogSumExp r in
  let logsum12 := LogSumExp (pointwise_sum l r) in
  let sumlogsum := logsum1 + logsum2 in
  let M := Rmax sumlogsum logsum12 in
  coloc.sum_logABF row = cells (pointwise_sum l r) /\
  coloc.lH0abf = Some 0 /\
  coloc.lH1abf priorc1 row = Some (ln priorc1 + logsum1) /\
  coloc.lH2abf priorc2 row = Some (ln priorc2 + logsum2) /\
  coloc.lH3abf priorc1 priorc2 row
  = Some (ln priorc1 + ln priorc2 + M
          + ln (exp (sumlogsum - M) - exp (logsum12 - M))) /\
  coloc.lH4abf priorc12 row = Some (ln priorc12 + logsum12).
Proof.
  intros logsum1 logsum2 logsum12 sumlogsum M.
  assert (Hne : l <> []).
  { intros ->. apply (not_degenerate_left_nonempty row Hkept). exact Hleft. }
  split; [now apply sum_logABF_cells |].
  split; [reflexivity |].
  split; [| split; [| split]].
  - unfold coloc.lH1abf, F.lit.
    rewrite (log_pos priorc1 Hp1), (logsum1_aligned row l Hleft Hne).
    reflexivity.
  - unfold coloc.lH2abf, F.lit.
    rewrite (log_pos priorc2 Hp2),
      (logsum2_aligned row l r Hleft Hright Hlen Hne).
    reflexivity.
  - unfold coloc.lH3abf, F.lit.
    rewrite (log_pos priorc1 Hp1), (log_pos priorc2 Hp2).
    rewrite (logdiff_aligned row l r Hleft Hright Hlen Hne Hkept).
    simpl. f_equal. fold logsum1 logsum2 logsum12 sumlogsum M. lra.
  - unfold coloc.lH4abf, F.lit.
    rewrite (log_pos priorc12 Hp12),
      (logsum12_aligned row l r Hleft Hright Hlen Hne).
    reflexivity.
Qed.

Lemma pair_flat_kept : coloc.not_degenerate pair_flat = true.
Proof.
  apply (not_degenerate_two_variants pair_flat [0; 0] [0; 0]);
    try reflexivity; try discriminate.
Qed.

(** ** The degeneracy filter *)

Lemma colocalisation_app (a b : list OverlapRow) (p1 p2 p12 : R) :
  coloc.colocalisation (a ++ b) p1 p2 p12
  = coloc.colocalisation a p1 p2 p12 ++ coloc.colocalisation b p1 p2 p12.
Proof.
  unfold coloc.colocalisation. now rewrite filter_app, map_app.
Qed.

Lemma neq_same (c : option R) : F.holds (F.neq c c) = false.
Proof.
  destruct c as [x|]; simpl; [| reflexivity].
  destruct (Req_dec_T x x); [reflexivity | congruence].
Qed.

Lemma degenerate_not_kept (row : OverlapRow) :
  coloc.sumlogsum row = coloc.logsum12 row ->
  coloc.not_degenerate row = false.
Proof.
  intro H. unfold coloc.not_degenerate. rewrite H. apply neq_same.
Qed.

Lemma kept_values_differ (row : OverlapRow) :
  coloc.not_degenerate row = true ->
  exists s l12 : R,
    coloc.sumlogsum row = Some s /\ coloc.logsum12 row = Some l12 /\
    s <> l12.
Proof.
  unfold coloc.not_degenerate.
  destruct (coloc.sumlogsum row) as [s|], (coloc.logsum12 row) as [l12|];
    simpl; try discriminate.
  destruct (Req_dec_T s l12); [discriminate |].
  intros _. now exists s, l12.
Qed.

Lemma dropped_row_contributes_nothing
      (pre post : list OverlapRow) (row : OverlapRow) (p1 p2 p12 : R) :
  coloc.not_degenerate row = false ->
  coloc.colocalisation (pre ++ row :: post) p1 p2 p12
  = coloc.colocalisation (pre ++ post) p1 p2 p12.
Proof.
  intro H. rewrite !colocalisation_app. f_equal.
  unfold coloc.colocalisation. simpl. now rewrite H.
Qed.

(** C4: a pair whose [sumlogsum] equals its [logsum12] adds no row to the
    output, and every row of the output comes from a pair whose two values
    are not NULL and differ. *)
Theorem degenerate_pairs_are_dropped
        (pre post : list OverlapRow) (row : OverlapRow) (p1 p2 p12 : R) :
  (coloc.sumlogsum row = coloc.logsum12 row ->
   coloc.colocalisation (pre ++ row :: post) p1 p2 p12
   = coloc.colocalisation (pre ++ post) p1 p2 p12) /\
  (forall out : ColocRow,
      In out (coloc.colocalisation (pre ++ row :: post) p1 p2 p12) ->
      exists src : OverlapRow,
        In src (pre ++ row :: post) /\
        out = coloc.result_row p1 p2 p12 src /\
        exists s l12 : R,
          coloc.sumlogsum src = Some s /\ coloc.logsum12 src = Some l12 /\
          s <> l12).
Proof.
  split.
  - intro H. now apply dropped_row_contributes_nothing, degenerate_not_kept.
  - intros out Hin. unfold coloc.colocalisation in Hin.
    apply in_map_iff in Hin as (src & <- & Hsrc).
    apply filter_In in Hsrc as [Hsrc Hkept].
    exists src. repeat split; [exact Hsrc |].
    now apply kept_values_differ.
Qed.

Lemma logsum_singleton (x : R) : coloc.logsum [Some x] = Some x.
Proof.
  change [Some x] with (cells [x]). rewrite logsum_cells_shifted.
  unfold Rmax_list. simpl. f_equal.
  replace (x - x) with 0 by lra.
  rewrite exp_0, Rplus_0_r, ln_1. lra.
Qed.

Lemma singleton_values (row : OverlapRow) (a b : R) :
  left_logABF row = [Some a] -> right_logABF row = [Some b] ->
  coloc.logsum1 row = Some a /\ coloc.logsum2 row = Some b /\
  coloc.sumlogsum row = Some (a + b) /\
  coloc.logsum12 row = Some (a + b).
Proof.
  intros Hl Hr.
  assert (H1 : coloc.logsum1 row = Some a).
  { unfold coloc.logsum1. rewrite Hl. apply logsum_singleton. }
  assert (H2 : coloc.logsum2 row = Some b).
  { unfold coloc.logsum2. rewrite Hr. apply logsum_singleton. }
  repeat split; try assumption.
  - unfold coloc.sumlogsum. now rewrite H1, H2.
  - unfold coloc.logsum12, coloc.sum_logABF. rewrite Hl, Hr. simpl.
    apply logsum_singleton.
Qed.

(** Opens the columns the filter compares. *)
Ltac unfold_columns :=
  unfold coloc.sumlogsum, coloc.logsum12, coloc.sum_logABF,
    coloc.logsum1, coloc.logsum2.

Lemma singleton_degenerate (row : OverlapRow) :
  List.length (left_logABF row) = 1%nat ->
  List.length (right_logABF row) = 1%nat ->
  coloc.sumlogsum row = coloc.logsum12 row.
Proof.
  intros Hl Hr.
  destruct (left_logABF row) as [|x [|? ?]] eqn:El; try discriminate.
  destruct (right_logABF row) as [|y [|? ?]] eqn:Er; try discriminate.
  destruct x as [a|], y as [b|].
  - destruct (singleton_values row a b El Er) as (_ & _ & -> & ->).
    reflexivity.
  - unfold_columns. rewrite El, Er, logsum_singleton. reflexivity.
  - unfold_columns. rewrite El, Er. reflexivity.
  - unfold_columns. rewrite El, Er. reflexivity.
Qed.

Lemma colocalisation_cons_kept
      (row : OverlapRow) (rest : list OverlapRow) (p1 p2 p12 : R) :
  coloc.not_degenerate row = true ->
  coloc.colocalisation (row :: rest) p1 p2 p12
  = coloc.result_row p1 p2 p12 row :: coloc.colocalisation rest p1 p2 p12.
Proof.
  intro H. unfold coloc.colocalisation.
  cbn [filter]. rewrite H. reflexivity.
Qed.

Lemma colocalisation_cons_dropped
      (row : OverlapRow) (rest : list OverlapRow) (p1 p2 p12 : R) :
  coloc.not_degenerate row = false ->
  coloc.colocalisation (row :: rest) p1 p2 p12
  = coloc.colocalisation rest p1 p2 p12.
Proof.
  intro H. unfold coloc.colocalisation.
  cbn [filter]. rewrite H. reflexivity.
Qed.

Lemma pair_5_5_degenerate :
  coloc.sumlogsum pair_5_5 = coloc.logsum12 pair_5_5.
Proof. apply singleton_degenerate; reflexivity. Qed.

Lemma degenerate_pairs_are_dropped_witness :
  coloc.sumlogsum pair_5_5 = coloc.logsum12 pair_5_5 /\
  coloc.colocalisation ([pair_flat] ++ pair_5_5 :: []) (/ 2) (/ 2) (/ 2)
  = coloc.colocalisation ([pair_flat] ++ []) (/ 2) (/ 2) (/ 2) /\
  In (coloc.result_row (/ 2) (/ 2) (/ 2) pair_flat)
     (coloc.colocalisation ([pair_flat] ++ pair_5_5 :: [])
                           (/ 2) (/ 2) (/ 2)) /\
  exists src : OverlapRow,
    In src ([pair_flat] ++ pair_5_5 :: []) /\
    coloc.result_row (/ 2) (/ 2) (/ 2) pair_flat
    = coloc.result_row (/ 2) (/ 2) (/ 2) src /\
    exists s l12 : R,
      coloc.sumlogsum src = Some s /\ coloc.logsum12 src = Some l12 /\
      s <> l12.
Proof.
  destruct (degenerate_pairs_are_dropped
              [pair_flat] [] pair_5_5 (/ 2) (/ 2) (/ 2)) as [Hdrop Hkept].
  assert (Hin : In (coloc.result_row (/ 2) (/ 2) (/ 2) pair_flat)
                   (coloc.colocalisation ([pair_flat] ++ pair_5_5 :: [])
                                         (/ 2) (/ 2) (/ 2))).
  { cbn [app]. rewrite (colocalisation_cons_kept _ _ _ _ _ pair_flat_kept).
    now left. }
  split; [exact pair_5_5_degenerate |].
  split; [exact (Hdrop pair_5_5_degenerate) |].
  split; [exact Hin |].
  exact (Hkept _ Hin).
Defined.

(** ** The strong concordant single-variant pair *)

(** C8 as it is stated: a row comes out for the pair ([5], [5]) and its
    [coloc_h4] is above the four other posteriors.  No row comes out. *)
Lemma h4_dominant_on_5_5_fails :
  ~ exists (out : ColocRow) (h0 h1 h2 h3 h4 : R),
      In out (coloc.colocalisation [pair_5_5]
                (1 / 10000) (1 / 10000) (1 / 100000)) /\
      coloc_h0 out = Some h0 /\ coloc_h1 out = Some h1 /\
      coloc_h2 out = Some h2 /\ coloc_h3 out = Some h3 /\
      coloc_h4 out = Some h4 /\
      h0 < h4 /\ h1 < h4 /\ h2 < h4 /\ h3 < h4.
Proof.
  intros (out & h0 & h1 & h2 & h3 & h4 & Hin & _).
  rewrite colocalisation_cons_dropped in Hin.
  - exact Hin.
  - apply degenerate_not_kept, pair_5_5_degenerate.
Qed.

(** C8, amended: with these priors the pair ([5], [5]) gives no output
    row; its [sumlogsum] and its [logsum12] are both 10 and the filter
    removes it. *)
Theorem pair_5_5_emits_no_row :
  coloc.sumlogsum pair_5_5 = Some 10 /\
  coloc.logsum12 pair_5_5 = Some 10 /\
  coloc.colocalisation [pair_5_5] (1 / 10000) (1 / 10000) (1 / 100000) = [].
Proof.
  destruct (singleton_values pair_5_5 5 5 eq_refl eq_refl)
    as (_ & _ & Hs & Hl).
  replace (5 + 5) with 10 in Hs, Hl by lra.
  split; [exact Hs |]. split; [exact Hl |].
  apply colocalisation_cons_dropped, degenerate_not_kept, pair_5_5_degenerate.
Qed.

(** ** Priors *)

Lemma add_null_r (a : option R) : F.add a None = None.
Proof. now destruct a. Qed.

Lemma sub_null_r (a : option R) : F.sub a None = None.
Proof. now destruct a. Qed.

Lemma fold_add_null (l : list (option R)) :
  fold_left (fun acc x => F.add acc x) l None = None.
Proof. induction l as [|x l IH]; simpl; [reflexivity | exact IH]. Qed.

Lemma aggregate_with_null (l : list (option R)) (acc : option R) :
  In None l -> F.aggregate l acc (fun acc x => F.add acc x) = None.
Proof.
  unfold F.aggregate. revert acc.
  induction l as [|x l IH]; intros acc Hin; simpl in *; [contradiction |].
  destruct Hin as [-> | Hin].
  - rewrite add_null_r. apply fold_add_null.
  - now apply IH.
Qed.

(** One NULL element makes [logsum] NULL. *)
Lemma logsum_with_null (v : list (option R)) :
  In None v -> coloc.logsum v = None.
Proof.
  intro Hin. unfold coloc.logsum.
  rewrite aggregate_with_null.
  - apply add_null_r.
  - unfold F.transform. apply in_map_iff. exists None. now split.
Qed.

Lemma posteriors_with_null (v : list (option R)) (i : nat) :
  In None v -> F.getItem (coloc.posteriors v) i = None.
Proof.
  intro Hin. unfold coloc.posteriors, F.getItem, F.transform.
  rewrite (logsum_with_null v Hin).
  revert i. induction v as [|x v IH]; intro i.
  - now destruct i.
  - clear IH Hin. revert i.
    induction (x :: v) as [|y w IHw]; intro i; [now destruct i |].
    destruct i as [|i]; simpl.
    + now rewrite sub_null_r.
    + apply IHw.
Qed.

Lemma allABF_null_of_bad_prior (row : OverlapRow) (p1 p2 p12 : R) :
  p1 <= 0 \/ p2 <= 0 \/ p12 <= 0 ->
  In None (coloc.allABF p1 p2 p12 row).
Proof.
  unfold coloc.allABF. intros [H | [H | H]].
  - right; left. unfold coloc.lH1abf, F.lit. now rewrite log_nonpos.
  - right; right; left. unfold coloc.lH2abf, F.lit. now rewrite log_nonpos.
  - do 4 right; left. unfold coloc.lH4abf, F.lit. now rewrite log_nonpos.
Qed.

(** The posteriors of a row that passes the filter, with positive priors:
    five numbers that add up to 1. *)
Lemma result_row_posteriors
      (row : OverlapRow) (l r : list R) (p1 p2 p12 : R) :
  left_logABF row = cells l -> right_logABF row = cells r ->
  List.length l = List.length r ->
  0 < p1 -> 0 < p2 -> 0 < p12 ->
  coloc.not_degenerate row = true ->
  exists h0 h1 h2 h3 h4 : R,
    coloc_h (coloc.result_row p1 p2 p12 row) = cells [h0; h1; h2; h3; h4] /\
    h0 + h1 + h2 + h3 + h4 = 1.
Proof.
  intros Hl Hr Hlen Hp1 Hp2 Hp12 Hkept.
  destruct (log_bayes_factors_aligned row l r p1 p2 p12
              Hl Hr Hlen Hp1 Hp2 Hp12 Hkept)
    as (_ & E0 & E1 & E2 & E3 & E4).
  unfold coloc_h, coloc.result_row, coloc.allABF. cbn [coloc_h0 coloc_h1
    coloc_h2 coloc_h3 coloc_h4].
  rewrite E0, E1, E2, E3, E4.
  match goal with
  | |- context [coloc.posteriors [Some ?a; Some ?b; Some ?c; Some ?d; Some ?e]] =>
      change [Some a; Some b; Some c; Some d; Some e]
        with (cells [a; b; c; d; e]);
      set (lH := [a; b; c; d; e])
  end.
  assert (Hne : lH <> []) by discriminate.
  rewrite (posteriors_cells lH Hne).
  pose proof (posteriors_sum_one lH Hne) as Hsum.
  set (L := LogSumExp lH) in *.
  unfold lH in *. simpl in Hsum. unfold F.getItem. simpl.
  do 5 eexists. split; [reflexivity |]. lra.
Qed.

(** C7 as it is stated, against priors of 2: nothing is raised, the pair is
    processed and its five posteriors are computed. *)
Lemma invalid_priors_are_processed :
  coloc.colocalisation [pair_flat] 2 2 2
  = [coloc.result_row 2 2 2 pair_flat] /\
  exists h0 h1 h2 h3 h4 : R,
    coloc_h (coloc.result_row 2 2 2 pair_flat) = cells [h0; h1; h2; h3; h4].
Proof.
  split.
  - now rewrite (colocalisation_cons_kept _ _ _ _ _ pair_flat_kept).
  - destruct (result_row_posteriors pair_flat [0; 0] [0; 0] 2 2 2)
      as (h0 & h1 & h2 & h3 & h4 & H & _);
      try reflexivity; try lra; [exact pair_flat_kept |].
    now exists h0, h1, h2, h3, h4.
Qed.

(** C7, amended: the priors are not validated.  Whatever they are, the
    output has one row for each pair that passes the filter, and the filter
    does not look at them; a prior at or below zero only turns the five
    posteriors of every row into NULL. *)
Theorem priors_are_not_validated
        (overlappingSignals : list OverlapRow) (priorc1 priorc2 priorc12 : R) :
  map carried_over
      (coloc.colocalisation overlappingSignals priorc1 priorc2 priorc12)
  = map compared (filter coloc.not_degenerate overlappingSignals) /\
  (priorc1 <= 0 \/ priorc2 <= 0 \/ priorc12 <= 0 ->
   forall out : ColocRow,
     In out (coloc.colocalisation overlappingSignals
                                  priorc1 priorc2 priorc12) ->
     coloc_h out = [None; None; None; None; None]).
Proof.
  split.
  - unfold coloc.colocalisation. rewrite map_map. reflexivity.
  - intros Hbad out Hin. unfold coloc.colocalisation in Hin.
    apply in_map_iff in Hin as (row & <- & _).
    pose proof (allABF_null_of_bad_prior row priorc1 priorc2 priorc12 Hbad)
      as Hnull.
    unfold coloc_h, coloc.result_row.
    cbn [coloc_h0 coloc_h1 coloc_h2 coloc_h3 coloc_h4].
    now rewrite !(posteriors_with_null _ _ Hnull).
Qed.

Lemma priors_are_not_validated_witness :
  (-1 <= 0 \/ 2 <= 0 \/ 2 <= 0) /\
  In (coloc.result_row (-1) 2 2 pair_flat)
     (coloc.colocalisation [pair_flat] (-1) 2 2) /\
  map carried_over (coloc.colocalisation [pair_flat] (-1) 2 2)
  = map compared (filter coloc.not_degenerate [pair_flat]) /\
  coloc_h (coloc.result_row (-1) 2 2 pair_flat)
  = [None; None; None; None; None].
Proof.
  assert (Hbad : -1 <= 0 \/ 2 <= 0 \/ 2 <= 0) by (left; lra).
  assert (Hin : In (coloc.result_row (-1) 2 2 pair_flat)
                   (coloc.colocalisation [pair_flat] (-1) 2 2)).
  { rewrite (colocalisation_cons_kept _ _ _ _ _ pair_flat_kept). now left. }
  destruct (priors_are_not_validated [pair_flat] (-1) 2 2) as [Hrows Hnull].
  split; [exact Hbad |]. split; [exact Hin |]. split; [exact Hrows |].
  exact (Hnull Hbad _ Hin).
Defined.

(** ** Pairs with empty vectors *)

Lemma pair_empty_dropped : coloc.not_degenerate pair_empty = false.
Proof. reflexivity. Qed.

(** ** The range of doubles *)

Ltac ieee_consts :=
  unfold IEEE.overflow, IEEE.max_double, IEEE.tiny, IEEE.absorbed in *;
  repeat match goal with
         | |- context [IZR ?z] =>
             lazymatch z with
             | context [Z.pow] =>
                 let v := eval vm_compute in z in change z with v
             end
         | H : context [IZR ?z] |- _ =>
             lazymatch z with
             | context [Z.pow] =>
                 let v := eval vm_compute in z in change z with v in H
             end
         end.

Lemma tiny_bounds : 0 < IEEE.tiny < 1.
Proof.
  ieee_consts. split.
  - apply Rinv_0_lt_compat. lra.
  - rewrite <- Rinv_1. apply Rinv_lt_contravar; lra.
Qed.

Lemma overflow_bounds :
  1 < IEEE.max_double /\ IEEE.max_double + IZR (2 ^ 31) < IEEE.overflow.
Proof. ieee_consts. split; lra. Qed.

Lemma range_fin (x : R) :
  - IEEE.overflow < x < IEEE.overflow ->
  (IEEE.range x = Fin 0 /\ Rabs x <= IEEE.tiny) \/
  (IEEE.range x = Fin x /\ IEEE.tiny < Rabs x).
Proof.
  intros [Hlo Hhi]. unfold IEEE.range.
  destruct (Rle_dec IEEE.overflow x); [lra |].
  destruct (Rle_dec x (- IEEE.overflow)); [lra |].
  destruct (Rle_dec (Rabs x) IEEE.tiny); [left | right]; split;
    try reflexivity; lra.
Qed.

Lemma range_0 : IEEE.range 0 = Fin 0.
Proof.
  pose proof overflow_bounds as Hover.
  destruct (range_fin 0) as [[Hr _] | [Hr _]]; [lra | exact Hr | exact Hr].
Qed.

Lemma range_above_tiny (x : R) :
  IEEE.tiny < x -> x < IEEE.overflow -> IEEE.range x = Fin x.
Proof.
  intros Hlo Hhi. pose proof tiny_bounds as Htiny.
  pose proof overflow_bounds as Hover.
  destruct (range_fin x) as [[_ Hr] | [Hr _]]; [lra | | exact Hr].
  rewrite Rabs_pos_eq in Hr; lra.
Qed.

Lemma range_1 : IEEE.range 1 = Fin 1.
Proof.
  pose proof tiny_bounds. pose proof overflow_bounds.
  apply range_above_tiny; lra.
Qed.

Lemma range_in_double_range (x : R) :
  in_double_range x -> IEEE.range x = Fin x.
Proof.
  intros [Hmax Hmin]. pose proof overflow_bounds as Hover.
  destruct Hmin as [-> | Hmin]; [apply range_0 |].
  destruct (range_fin x) as [[_ Hr] | [Hr _]]; [| lra | exact Hr].
  pose proof (Rle_abs x) as Hx. pose proof (Rle_abs (- x)) as Hx'.
  rewrite Rabs_Ropp in Hx'. lra.
Qed.

Lemma range_idem (x s : R) : IEEE.range x = Fin s -> IEEE.range s = Fin s.
Proof.
  unfold IEEE.range at 1.
  destruct (Rle_dec IEEE.overflow x); [discriminate |].
  destruct (Rle_dec x (- IEEE.overflow)); [discriminate |].
  destruct (Rle_dec (Rabs x) IEEE.tiny); intro H; injection H as <-.
  - apply range_0.
  - destruct (range_fin x) as [[_ Hr] | [Hr _]]; [lra | lra | exact Hr].
Qed.

Lemma range_overflow (x : R) :
  IEEE.overflow <= Rabs x ->
  IEEE.range x = PosInf \/ IEEE.range x = NegInf.
Proof.
  intro H. unfold IEEE.range.
  destruct (Rle_dec IEEE.overflow x); [now left |].
  destruct (Rle_dec x (- IEEE.overflow)); [now right |].
  exfalso. revert H. unfold Rabs. destruct (Rcase_abs x); lra.
Qed.

Lemma in_double_range_between (x : R) :
  IEEE.tiny < x <= IEEE.max_double -> in_double_range x.
Proof.
  intros [Hlo Hhi]. pose proof tiny_bounds.
  unfold in_double_range. rewrite Rabs_pos_eq by lra.
  split; [lra | now right].
Qed.

Lemma in_double_range_0 : in_double_range 0.
Proof.
  pose proof overflow_bounds.
  unfold in_double_range. rewrite Rabs_R0. split; [lra | now left].
Qed.

Lemma ln_le_minus_1 (x : R) : 1 <= x -> 0 <= ln x <= x - 1.
Proof.
  intro Hx. split.
  - rewrite <- ln_1. destruct Hx as [Hx | <-]; [| lra].
    left. apply ln_increasing; lra.
  - destruct Hx as [Hx | <-]; [| rewrite ln_1; lra].
    rewrite <- (ln_exp (x - 1)). left. apply ln_increasing; [lra |].
    pose proof (exp_ineq1 (x - 1)). lra.
Qed.

Lemma exp_INR_mult (n : nat) (x : R) : exp (INR n * x) = exp x ^ n.
Proof.
  induction n as [| n IH].
  - simpl. rewrite Rmult_0_l. apply exp_0.
  - rewrite S_INR, Rmult_plus_distr_r, Rmult_1_l, exp_plus, IH. simpl. ring.
Qed.

(** e^800 is above 2^1075: e^(1/8) is above 9/8, and (9/8)^6400 is above
    2^1075. *)
Lemma exp_800_big : IZR (2 ^ 1075) <= exp 800.
Proof.
  set (n := Z.to_nat 6400).
  assert (Hn : Z.of_nat n = 6400%Z) by (unfold n; now rewrite Z2Nat.id).
  replace 800 with (INR n * / 8)
    by (rewrite INR_IZR_INZ, Hn; lra).
  rewrite exp_INR_mult.
  apply Rle_trans with ((IZR 9 * / IZR 8) ^ n).
  - rewrite Rpow_mult_distr, pow_inv, !pow_IZR, Hn.
    apply Rmult_le_reg_r with (IZR (8 ^ 6400)).
    + apply IZR_lt. reflexivity.
    + rewrite Rmult_assoc, Rinv_l, Rmult_1_r.
      * rewrite <- mult_IZR. apply IZR_le.
        apply Z.leb_le. vm_compute. reflexivity.
      * apply Rgt_not_eq. apply IZR_lt. reflexivity.
  - apply pow_incr. split; [lra |].
    pose proof (exp_ineq1 (/ 8)). lra.
Qed.

Lemma exp_minus_800_tiny : exp (Ropp 800) <= IEEE.tiny.
Proof.
  unfold IEEE.tiny. rewrite exp_Ropp.
  apply Rinv_le_contravar; [| apply exp_800_big].
  apply IZR_lt. reflexivity.
Qed.

Lemma exp_underflows (x : R) : x <= Ropp 800 -> IEEE.xexp (Fin x) = Fin 0.
Proof.
  intro Hx. cbn [IEEE.xexp].
  pose proof tiny_bounds as Htiny. pose proof overflow_bounds as Hover.
  pose proof (exp_pos x) as Hpos.
  assert (Hexp : exp x <= IEEE.tiny).
  { apply Rle_trans with (exp (Ropp 800)); [| apply exp_minus_800_tiny].
    destruct Hx as [Hx | ->]; [left; now apply exp_increasing | right; reflexivity]. }
  destruct (range_fin (exp x)) as [[-> _] | [_ Hr]]; [lra | reflexivity |].
  rewrite Rabs_pos_eq in Hr; lra.
Qed.

(** ** Sums of two doubles *)

Lemma absorbed_bounds :
  0 < IEEE.absorbed < 1 /\
  IEEE.max_double * IEEE.absorbed + IEEE.max_double < IEEE.overflow.
Proof.
  ieee_consts. split; [split |].
  - apply Rinv_0_lt_compat. lra.
  - rewrite <- Rinv_1. apply Rinv_lt_contravar; lra.
  - lra.
Qed.

Lemma sum_of_cases (x y : R) :
  (IEEE.sum_of x y = Fin x /\ Rabs y <= Rabs x * IEEE.absorbed) \/
  (IEEE.sum_of x y = Fin y /\ Rabs x <= Rabs y * IEEE.absorbed) \/
  (IEEE.sum_of x y = IEEE.range (x + y) /\
   Rabs x * IEEE.absorbed < Rabs y /\ Rabs y * IEEE.absorbed < Rabs x).
Proof.
  unfold IEEE.sum_of.
  destruct (Rle_dec (Rabs y) (Rabs x * IEEE.absorbed)); [now left |].
  destruct (Rle_dec (Rabs x) (Rabs y * IEEE.absorbed)); [right; now left |].
  right. right. split; [reflexivity | lra].
Qed.

Lemma Rabs_le_0 (x : R) : Rabs x <= 0 -> x = 0.
Proof. unfold Rabs. destruct (Rcase_abs x); lra. Qed.

Lemma sum_of_0_r (x : R) : IEEE.sum_of x 0 = Fin x.
Proof.
  pose proof absorbed_bounds as [[Ha _] _]. pose proof (Rabs_pos x) as Hx.
  unfold IEEE.sum_of. rewrite Rabs_R0.
  destruct (Rle_dec 0 (Rabs x * IEEE.absorbed)) as [_ | Hn]; [reflexivity |].
  exfalso. apply Hn. apply Rmult_le_pos; lra.
Qed.

Lemma sum_of_0_l (y : R) : IEEE.sum_of 0 y = Fin y.
Proof.
  pose proof absorbed_bounds as [[Ha _] _]. pose proof (Rabs_pos y) as Hy.
  unfold IEEE.sum_of. rewrite Rabs_R0, Rmult_0_l.
  destruct (Rle_dec (Rabs y) 0) as [H0 | _].
  - f_equal. symmetry. now apply Rabs_le_0.
  - destruct (Rle_dec 0 (Rabs y * IEEE.absorbed)) as [_ | Hn];
      [reflexivity |].
    exfalso. apply Hn. apply Rmult_le_pos; lra.
Qed.

Lemma absorbed_by_itself (x y : R) :
  Rabs x <= Rabs y -> Rabs y <= Rabs x * IEEE.absorbed -> x = 0 /\ y = 0.
Proof.
  intros Hxy Hyx. pose proof absorbed_bounds as [[Ha0 Ha1] _].
  pose proof (Rabs_pos x) as Hx. pose proof (Rabs_pos y) as Hy.
  assert (Hx0 : Rabs x <= 0) by nra.
  assert (Hy0 : Rabs y <= 0) by nra.
  split; now apply Rabs_le_0.
Qed.

Lemma sum_of_diag (x : R) : IEEE.sum_of x (- x) = Fin 0.
Proof.
  destruct (sum_of_cases x (- x)) as [[-> H] | [[-> H] | [-> _]]].
  - rewrite Rabs_Ropp in H.
    destruct (absorbed_by_itself x x (Rle_refl _) H) as [-> _]. reflexivity.
  - rewrite Rabs_Ropp in H.
    destruct (absorbed_by_itself x x (Rle_refl _) H) as [-> _].
    now rewrite Ropp_0.
  - rewrite Rplus_opp_r. apply range_0.
Qed.

(** The sum of two numbers that are not negative is above each of them and
    not above their exact sum. *)
Lemma sum_of_nonneg (s t : R) :
  s = 0 \/ IEEE.tiny < s -> t = 0 \/ IEEE.tiny < t ->
  s + t < IEEE.overflow ->
  exists u : R,
    IEEE.sum_of s t = Fin u /\ s <= u /\ t <= u /\ u <= s + t /\
    (u = 0 \/ IEEE.tiny < u).
Proof.
  intros Hs Ht Hlt.
  pose proof tiny_bounds as Htiny. pose proof absorbed_bounds as [[Ha0 Ha1] _].
  assert (Hs0 : 0 <= s) by (destruct Hs; lra).
  assert (Ht0 : 0 <= t) by (destruct Ht; lra).
  destruct (sum_of_cases s t) as [[-> H] | [[-> H] | [-> _]]].
  - rewrite !Rabs_pos_eq in H by assumption.
    exists s. split; [reflexivity |]. split; [lra |]. split; [nra |].
    split; [lra | exact Hs].
  - rewrite !Rabs_pos_eq in H by assumption.
    exists t. split; [reflexivity |]. split; [nra |]. split; [lra |].
    split; [lra | exact Ht].
  - exists (s + t).
    split.
    + destruct Hs as [-> | Hs], Ht as [-> | Ht].
      * rewrite Rplus_0_r. apply range_0.
      * rewrite Rplus_0_l. apply range_above_tiny; lra.
      * rewrite Rplus_0_r. apply range_above_tiny; lra.
      * apply range_above_tiny; lra.
    + split; [lra |]. split; [lra |]. split; [lra |].
      destruct Hs as [-> | Hs], Ht as [-> | Ht];
        [left; lra | right; lra | right; lra | right; lra].
Qed.

(** A number less a number that is not below it is -infinity or a number
    that is not positive. *)
Lemma sum_of_diff_nonpos (x m : R) :
  x <= m ->
  IEEE.sum_of x (- m) = NegInf \/
  exists d : R, IEEE.sum_of x (- m) = Fin d /\ d <= 0.
Proof.
  intro Hle. pose proof absorbed_bounds as [[Ha0 Ha1] _].
  pose proof overflow_bounds as Hover.
  destruct (sum_of_cases x (- m)) as [[-> H] | [[-> H] | [-> _]]].
  - right. exists x. split; [reflexivity |].
    rewrite Rabs_Ropp in H.
    destruct (Rle_dec x 0) as [Hx | Hx]; [exact Hx | exfalso].
    rewrite (Rabs_pos_eq x), (Rabs_pos_eq m) in H by lra. nra.
  - right. exists (- m). split; [reflexivity |].
    rewrite Rabs_Ropp in H.
    destruct (Rle_dec 0 m) as [Hm | Hm]; [lra | exfalso].
    rewrite (Rabs_left x), (Rabs_left m) in H by lra. nra.
  - unfold IEEE.range.
    destruct (Rle_dec IEEE.overflow (x + - m)); [lra |].
    destruct (Rle_dec (x + - m) (- IEEE.overflow)); [now left |].
    right. destruct (Rle_dec (Rabs (x + - m)) IEEE.tiny).
    + exists 0. split; [reflexivity | lra].
    + exists (x + - m). split; [reflexivity | lra].
Qed.

Lemma xexp_nonpos (d : R) :
  d <= 0 ->
  exists t : R,
    IEEE.xexp (Fin d) = Fin t /\ (t = 0 \/ IEEE.tiny < t) /\ t <= 1.
Proof.
  intro Hd. cbn [IEEE.xexp].
  pose proof tiny_bounds as Htiny. pose proof overflow_bounds as Hover.
  assert (Hexp : 0 < exp d <= 1).
  { split; [apply exp_pos |].
    rewrite <- exp_0. destruct Hd as [Hlt | ->].
    - left. now apply exp_increasing.
    - right. reflexivity. }
  destruct (range_fin (exp d)) as [[-> _] | [-> Habs]]; [lra | |].
  - exists 0. split; [reflexivity |]. split; [now left | lra].
  - rewrite Rabs_pos_eq in Habs by lra.
    exists (exp d). split; [reflexivity |]. split; [now right | lra].
Qed.

(** ** [logsum] on doubles *)

Lemma ieee_add_fin (x y : R) :
  IEEE.F.add (Some (Fin x)) (Some (Fin y)) = Some (IEEE.sum_of x y).
Proof. reflexivity. Qed.

Lemma ieee_sub_fin (x y : R) :
  IEEE.F.sub (Some (Fin x)) (Some (Fin y)) = Some (IEEE.sum_of x (- y)).
Proof. reflexivity. Qed.

Lemma ieee_log_fin (x : R) :
  0 < x -> IEEE.F.log (Some (Fin x)) = Some (IEEE.range (ln x)).
Proof.
  intro Hx. cbn [IEEE.F.log]. now destruct (Rlt_dec 0 x).
Qed.

Lemma ieee_term_max (m : R) :
  IEEE.F.exp (IEEE.F.sub (Some (Fin m)) (Some (Fin m))) = Some (Fin 1).
Proof.
  rewrite ieee_sub_fin, sum_of_diag.
  cbn [IEEE.F.exp option_map IEEE.xexp].
  now rewrite exp_0, range_1.
Qed.

(** Once a number that is not below it is taken out, the exponential of
    a number is a number of [0, 1]: 0 when it underflows. *)
Lemma ieee_term_fin (x m : R) :
  x <= m ->
  exists t : R,
    IEEE.F.exp (IEEE.F.sub (Some (Fin x)) (Some (Fin m))) = Some (Fin t) /\
    (t = 0 \/ IEEE.tiny < t) /\ t <= 1.
Proof.
  intro Hle. pose proof tiny_bounds as Htiny.
  rewrite ieee_sub_fin. cbn [IEEE.F.exp option_map].
  destruct (sum_of_diff_nonpos x m Hle) as [-> | (d & -> & Hd)].
  - exists 0. split; [reflexivity |]. split; [now left | lra].
  - destruct (xexp_nonpos d Hd) as (t & -> & Ht). now exists t.
Qed.

(** The same for an element that may be -infinity. *)
Lemma ieee_term (e : xdouble) (m : R) :
  below_infinity e -> (forall x, e = Fin x -> x <= m) ->
  exists t : R,
    IEEE.F.exp (IEEE.F.sub (Some e) (Some (Fin m))) = Some (Fin t) /\
    (t = 0 \/ IEEE.tiny < t) /\ t <= 1.
Proof.
  intros He Hle. pose proof tiny_bounds as Htiny.
  destruct e as [x | | |]; try contradiction.
  - now apply ieee_term_fin, Hle.
  - exists 0. split; [reflexivity |]. split; [now left | lra].
Qed.

Lemma ieee_fold_max_fin (a : list xdouble) (m0 : R) :
  (forall e, In e a -> below_infinity e) ->
  exists m : R,
    fold_left IEEE.F.max_skip_null (map Some a) (Some (Fin m0)) = Some (Fin m) /\
    (m = m0 \/ In (Fin m) a) /\
    m0 <= m /\ forall x, In (Fin x) a -> x <= m.
Proof.
  revert m0. induction a as [| e a IH]; intros m0 Hok.
  - exists m0. split; [reflexivity |]. split; [now left |].
    split; [lra |]. intros x [].
  - assert (Hok' : forall e', In e' a -> below_infinity e')
      by (intros e' He'; apply Hok; now right).
    pose proof (Hok e (or_introl eq_refl)) as He.
    destruct e as [x | | |]; try contradiction.
    + destruct (IH (Rmax m0 x) Hok') as (m & Hm & Hmem & Hle & Hall).
      exists m. split; [exact Hm |].
      pose proof (Rmax_l m0 x). pose proof (Rmax_r m0 x).
      split; [| split; [lra |]].
      * destruct Hmem as [-> | Hmem]; [| right; now right].
        unfold Rmax. destruct (Rle_dec m0 x); [right; now left | now left].
      * intros y [Hy | Hy]; [injection Hy as ->; lra | now apply Hall].
    + destruct (IH m0 Hok') as (m & Hm & Hmem & Hle & Hall).
      exists m. split; [exact Hm |].
      split; [destruct Hmem; [now left | right; now right] |].
      split; [exact Hle |].
      intros y [Hy | Hy]; [discriminate | now apply Hall].
Qed.

Lemma ieee_fold_max_from_low (a : list xdouble) (acc : option xdouble) :
  acc = None \/ acc = Some NegInf ->
  (forall e, In e a -> below_infinity e) -> (exists x, In (Fin x) a) ->
  exists m : R,
    fold_left IEEE.F.max_skip_null (map Some a) acc = Some (Fin m) /\
    In (Fin m) a /\ forall x, In (Fin x) a -> x <= m.
Proof.
  revert acc. induction a as [| e a IH]; intros acc Hacc Hok [x0 Hx0].
  - destruct Hx0.
  - assert (Hok' : forall e', In e' a -> below_infinity e')
      by (intros e' He'; apply Hok; now right).
    pose proof (Hok e (or_introl eq_refl)) as He.
    destruct e as [x | | |]; try contradiction.
    + destruct (ieee_fold_max_fin a x Hok') as (m & Hm & Hmem & Hle & Hall).
      exists m. split; [| split].
      * destruct Hacc as [-> | ->]; exact Hm.
      * destruct Hmem as [-> | Hmem]; [now left | now right].
      * intros y [Hy | Hy]; [injection Hy as ->; exact Hle | now apply Hall].
    + assert (Hrest : exists x, In (Fin x) a).
      { destruct Hx0 as [H | H]; [discriminate | now exists x0]. }
      destruct (IH (Some NegInf) (or_intror eq_refl) Hok' Hrest)
        as (m & Hm & Hmem & Hall).
      exists m. split; [| split].
      * destruct Hacc as [-> | ->]; exact Hm.
      * now right.
      * intros y [Hy | Hy]; [discriminate | now apply Hall].
Qed.

(** A sum of numbers of [0, 1] that starts from a number stays a number,
    above each of them, as long as the count of them is within the
    range. *)
Lemma ieee_aggregate_fin (cs : list (option xdouble)) (s0 : R) :
  (forall c, In c cs ->
             exists t, c = Some (Fin t) /\ (t = 0 \/ IEEE.tiny < t) /\ t <= 1) ->
  s0 = 0 \/ IEEE.tiny < s0 ->
  s0 + INR (List.length cs) < IEEE.overflow ->
  exists S : R,
    fold_left (fun acc x => IEEE.F.add acc x) cs (Some (Fin s0))
    = Some (Fin S) /\
    s0 <= S <= s0 + INR (List.length cs) /\
    forall t, In (Some (Fin t)) cs -> t <= S.
Proof.
  pose proof tiny_bounds as Htiny.
  revert s0. induction cs as [| c cs IH]; intros s0 Hcs Hs0 Hlen.
  - exists s0. split; [reflexivity |]. simpl. split; [lra |]. intros t [].
  - destruct (Hcs c (or_introl eq_refl)) as (t & -> & Ht & Ht1).
    change (List.length (Some (Fin t) :: cs)) with (S (List.length cs)) in *.
    rewrite S_INR in *.
    pose proof (pos_INR (List.length cs)) as Hn.
    destruct (sum_of_nonneg s0 t Hs0 Ht) as (u & Hu & Hsu & Htu & Hust & Hu0);
      [lra |].
    destruct (IH u) as (S' & HS & Hbound & Hall).
    + intros c' Hc'. apply Hcs. now right.
    + exact Hu0.
    + lra.
    + exists S'. split; [| split].
      * cbn [fold_left]. rewrite ieee_add_fin, Hu. exact HS.
      * lra.
      * intros t' [Ht' | Ht'].
        -- injection Ht' as ->. lra.
        -- now apply Hall.
Qed.

(** With a number among its elements, none of them +infinity or NaN,
    [logsum] is a number: its largest element is one, every exponential
    is in [0, 1] and that of the largest element is 1, so that the sum is
    between 1 and the count of the elements; and [logsum] is not below the
    largest element. *)
Lemma ieee_logsum_finite (a : list xdouble) :
  (exists x, In (Fin x) a) ->
  (forall e, In e a -> below_infinity e) ->
  (Z.of_nat (List.length a) < 2 ^ 31)%Z ->
  exists m S y : R,
    In (Fin m) a /\ (forall x, In (Fin x) a -> x <= m) /\
    IEEE.F.array_max (map Some a) = Some (Fin m) /\
    IEEE.F.aggregate
      (IEEE.F.transform (map Some a)
         (fun c => IEEE.F.exp (IEEE.F.sub c (Some (Fin m)))))
      (IEEE.F.lit 0) (fun acc x => IEEE.F.add acc x) = Some (Fin S) /\
    1 <= S <= INR (List.length a) /\
    IEEE.coloc.logsum (map Some a) = Some (Fin y) /\ m <= y.
Proof.
  intros Hfin Hok Hlen.
  pose proof tiny_bounds as Htiny. pose proof overflow_bounds as Hover.
  pose proof absorbed_bounds as [[Ha0 Ha1] _].
  destruct (ieee_fold_max_from_low a None (or_introl eq_refl) Hok Hfin)
    as (m & Hm & Hmem & Hall).
  destruct (Hok _ Hmem) as [Hmr Hmt].
  assert (Hn : INR (List.length a) < IZR (2 ^ 31)).
  { rewrite INR_IZR_INZ. now apply IZR_lt. }
  set (cs := map (fun c => IEEE.F.exp (IEEE.F.sub c (Some (Fin m))))
                 (map Some a)).
  assert (Hcs : forall c, In c cs ->
             exists t, c = Some (Fin t) /\ (t = 0 \/ IEEE.tiny < t) /\ t <= 1).
  { intros c Hc. unfold cs in Hc. rewrite map_map in Hc.
    apply in_map_iff in Hc as (e & <- & He).
    apply ieee_term; [now apply Hok |].
    intros x ->. now apply Hall. }
  assert (Hlencs : List.length cs = List.length a)
    by (unfold cs; now rewrite !length_map).
  destruct (ieee_aggregate_fin cs 0 Hcs (or_introl eq_refl))
    as (S & HS & [HS0 HSn] & Hterms).
  { rewrite Hlencs. lra. }
  rewrite Hlencs, Rplus_0_l in HSn.
  assert (HS1 : 1 <= S).
  { apply Hterms.
    rewrite <- (ieee_term_max m). unfold cs. rewrite map_map.
    apply in_map_iff. now exists (Fin m). }
  destruct (ln_le_minus_1 S HS1) as [HL0 HL1].
  assert (HL : exists L, IEEE.range (ln S) = Fin L /\ 0 <= L <= S - 1).
  { destruct (range_fin (ln S)) as [[-> _] | [-> _]]; [lra | |].
    - exists 0. split; [reflexivity | lra].
    - exists (ln S). split; [reflexivity | lra]. }
  destruct HL as (L & HL & HL0' & HL1').
  pose proof (Rle_abs m) as Hm1. pose proof (Rle_abs (- m)) as Hm2.
  rewrite Rabs_Ropp in Hm2.
  assert (Hy : exists y, IEEE.sum_of m L = Fin y /\ m <= y).
  { destruct (sum_of_cases m L) as [[-> _] | [[-> H] | [-> _]]].
    - exists m. split; [reflexivity | lra].
    - exists L. split; [reflexivity |].
      rewrite (Rabs_pos_eq L) in H by lra. nra.
    - destruct (range_fin (m + L)) as [[-> Habs] | [-> _]]; [lra | |].
      + exists 0. split; [reflexivity |].
        destruct Hmt as [-> | Hmt]; [lra |].
        destruct (Rle_dec m 0) as [Hneg | Hpos]; [exact Hneg | exfalso].
        rewrite (Rabs_pos_eq m) in Hmt by lra.
        rewrite Rabs_pos_eq in Habs by lra. lra.
      + exists (m + L). split; [reflexivity | lra]. }
  destruct Hy as (y & Hy & Hmy).
  exists m, S, y.
  split; [exact Hmem |]. split; [exact Hall |].
  split; [exact Hm |]. split; [exact HS |]. split; [lra |].
  split; [| exact Hmy].
  unfold IEEE.coloc.logsum.
  change (IEEE.F.array_max (map Some a)) with
    (fold_left IEEE.F.max_skip_null (map Some a) None).
  rewrite Hm.
  change (IEEE.F.aggregate
            (IEEE.F.transform (map Some a)
               (fun c => IEEE.F.exp (IEEE.F.sub c (Some (Fin m)))))
            (IEEE.F.lit 0) (fun acc x => IEEE.F.add acc x))
    with (fold_left (fun acc x => IEEE.F.add acc x) cs (Some (Fin 0))).
  rewrite HS, ieee_log_fin by lra.
  now rewrite HL, ieee_add_fin, Hy.
Qed.

(** C3 as it is stated, against [[800; 0]]: once 800 is taken out the
    exponential of the second element is 0, which is not in (0, 1].  The
    sum is 1 all the same and [logsum] is 800, where the exponential of
    800 itself is +infinity. *)
Lemma exp_term_underflows_to_zero :
  IEEE.F.array_max (doubles [800; 0]) = Some (Fin 800) /\
  IEEE.F.exp (IEEE.F.sub (Some (Fin 0)) (Some (Fin 800))) = Some (Fin 0) /\
  IEEE.coloc.logsum (doubles [800; 0]) = Some (Fin 800) /\
  IEEE.xexp (Fin 800) = PosInf.
Proof.
  pose proof tiny_bounds as Htiny. pose proof overflow_bounds as Hover.
  assert (Hmax : IEEE.F.array_max (doubles [800; 0]) = Some (Fin 800)).
  { cbn. now rewrite Rmax_left by lra. }
  assert (Hterm : IEEE.F.exp (IEEE.F.sub (Some (Fin 0)) (Some (Fin 800)))
                  = Some (Fin 0)).
  { rewrite ieee_sub_fin, sum_of_0_l. cbn [IEEE.F.exp option_map].
    f_equal. apply exp_underflows. lra. }
  split; [exact Hmax |]. split; [exact Hterm |]. split.
  - unfold IEEE.coloc.logsum. rewrite Hmax.
    unfold doubles, IEEE.F.transform, IEEE.F.aggregate, IEEE.F.lit.
    cbn [map fold_left]. rewrite ieee_term_max, Hterm.
    rewrite ieee_add_fin, sum_of_0_l, ieee_add_fin, sum_of_0_r.
    rewrite ieee_log_fin, ln_1, range_0 by lra.
    now rewrite ieee_add_fin, sum_of_0_r.
  - cbn [IEEE.xexp]. unfold IEEE.range.
    destruct (Rle_dec IEEE.overflow (exp 800)) as [_ | Hn];
      [reflexivity |].
    exfalso. apply Hn. apply Rle_trans with (IZR (2 ^ 1075));
      [| apply exp_800_big].
    ieee_consts. lra.
Qed.

(** C3, amended: over the reals [logsum] is the logarithm of the sum of
    the exponentials.  On a non-empty array of doubles that are numbers
    it takes out the largest of them, [m]: every exponential is then a
    number of [0, 1], that of [m] is 1, their sum is between 1 and the
    count of the elements, and [logsum], [m] plus the logarithm of that
    sum, is a number. *)
Theorem logsum_takes_out_the_max
        (v : list R) (Hne : v <> [])
        (Hdbl : forall x, In x v -> in_double_range x)
        (Hlen : (Z.of_nat (List.length v) < 2 ^ 31)%Z) :
  coloc.logsum (cells v) = Some (LogSumExp v) /\
  exists m S y : R,
    In m v /\ (forall x, In x v -> x <= m) /\
    IEEE.F.array_max (doubles v) = Some (Fin m) /\
    (forall x, In x v ->
               exists t, IEEE.F.exp (IEEE.F.sub (Some (Fin x)) (Some (Fin m)))
                         = Some (Fin t) /\ 0 <= t <= 1) /\
    IEEE.F.exp (IEEE.F.sub (Some (Fin m)) (Some (Fin m))) = Some (Fin 1) /\
    IEEE.F.aggregate
      (IEEE.F.transform (doubles v)
         (fun c => IEEE.F.exp (IEEE.F.sub c (Some (Fin m)))))
      (IEEE.F.lit 0) (fun acc x => IEEE.F.add acc x) = Some (Fin S) /\
    1 <= S <= INR (List.length v) /\
    IEEE.coloc.logsum (doubles v)
    = IEEE.F.add (Some (Fin m)) (IEEE.F.log (Some (Fin S))) /\
    IEEE.coloc.logsum (doubles v) = Some (Fin y).
Proof.
  split; [now apply logsum_cells |].
  pose proof tiny_bounds as Htiny.
  assert (Hfin : exists x, In (Fin x) (map Fin v)).
  { destruct v as [| x v]; [congruence |]. exists x. now left. }
  assert (Hok : forall e, In e (map Fin v) -> below_infinity e).
  { intros e He. apply in_map_iff in He as (x & <- & Hx). now apply Hdbl. }
  assert (Hlen' : (Z.of_nat (List.length (map Fin v)) < 2 ^ 31)%Z)
    by now rewrite length_map.
  destruct (ieee_logsum_finite (map Fin v) Hfin Hok Hlen')
    as (m & S & y & Hmem & Hall & Hmax & Hsum & HS & Hy & _).
  rewrite length_map in HS.
  assert (Hmv : In m v).
  { apply in_map_iff in Hmem as (x & Hx & Hin). now injection Hx as <-. }
  exists m, S, y.
  split; [exact Hmv |].
  split; [intros x Hx; apply Hall; now apply in_map |].
  split; [exact Hmax |].
  split.
  { intros x Hx.
    destruct (ieee_term (Fin x) m) as (t & Ht & Hpos & Ht1).
    - now apply Hdbl.
    - intros x' Hx'. injection Hx' as <-. apply Hall. now apply in_map.
    - exists t. split; [exact Ht |]. destruct Hpos; lra. }
  split; [apply ieee_term_max |].
  split; [exact Hsum |]. split; [exact HS |].
  split; [| exact Hy].
  unfold IEEE.coloc.logsum. unfold doubles in *. now rewrite Hmax, Hsum.
Qed.

Lemma logsum_takes_out_the_max_witness :
  [800; 0] <> [] /\
  (forall x, In x [800; 0] -> in_double_range x) /\
  coloc.logsum (cells [800; 0]) = Some (LogSumExp [800; 0]) /\
  exists m S y : R,
    In m [800; 0] /\ (forall x, In x [800; 0] -> x <= m) /\
    IEEE.F.array_max (doubles [800; 0]) = Some (Fin m) /\
    (forall x, In x [800; 0] ->
               exists t, IEEE.F.exp (IEEE.F.sub (Some (Fin x)) (Some (Fin m)))
                         = Some (Fin t) /\ 0 <= t <= 1) /\
    IEEE.F.exp (IEEE.F.sub (Some (Fin m)) (Some (Fin m))) = Some (Fin 1) /\
    IEEE.F.aggregate
      (IEEE.F.transform (doubles [800; 0])
         (fun c => IEEE.F.exp (IEEE.F.sub c (Some (Fin m)))))
      (IEEE.F.lit 0) (fun acc x => IEEE.F.add acc x) = Some (Fin S) /\
    1 <= S <= INR (List.length [800; 0]) /\
    IEEE.coloc.logsum (doubles [800; 0])
    = IEEE.F.add (Some (Fin m)) (IEEE.F.log (Some (Fin S))) /\
    IEEE.coloc.logsum (doubles [800; 0]) = Some (Fin y).
Proof.
  assert (Hne : [800; 0] <> []) by discriminate.
  assert (Hdbl : forall x, In x [800; 0] -> in_double_range x).
  { intros x [<- | [<- | []]].
    - apply in_double_range_between.
      pose proof tiny_bounds. split; [lra | ieee_consts; lra].
    - apply in_double_range_0. }
  assert (Hlen : (Z.of_nat (List.length [800; 0]) < 2 ^ 31)%Z)
    by reflexivity.
  split; [exact Hne |]. split; [exact Hdbl |].
  exact (logsum_takes_out_the_max [800; 0] Hne Hdbl Hlen).
Defined.

(** ** The log Bayes factors *)




(** ** [posteriors] on doubles *)

Lemma ieee_add_null_r (a : option xdouble) : IEEE.F.add a None = None.
Proof. now destruct a. Qed.

Lemma ieee_sub_null_r (a : option xdouble) : IEEE.F.sub a None = None.
Proof. now destruct a. Qed.

Lemma ieee_aggregate_with_null
      (l : list (option xdouble)) (acc : option xdouble) :
  acc = None \/ In None l ->
  fold_left (fun acc x => IEEE.F.add acc x) l acc = None.
Proof.
  revert acc. induction l as [| c l IH]; intros acc [Hacc | Hin].
  - exact Hacc.
  - destruct Hin.
  - subst acc. apply IH. now left.
  - destruct Hin as [-> | Hin].
    + simpl. rewrite ieee_add_null_r. apply IH. now left.
    + simpl. apply IH. now right.
Qed.

Lemma ieee_logsum_with_null (v : list (option xdouble)) :
  In None v -> IEEE.coloc.logsum v = None.
Proof.
  intro Hin. unfold IEEE.coloc.logsum, IEEE.F.aggregate, IEEE.F.transform.
  rewrite ieee_aggregate_with_null.
  - apply ieee_add_null_r.
  - right. apply in_map_iff. exists None. split; [reflexivity | exact Hin].
Qed.

(** C6 as it is stated, against five values of which two are 1e17: the
    logarithm of the sum of the exponentials, log 2, is lost when it is
    added to 1e17, [logsum] is 1e17, and the posteriors are 1, 1, 0, 0
    and 0, whose sum is 2.  With a NULL among the five values all the
    posteriors are NULL. *)
Lemma posteriors_of_large_values_sum_to_two :
  IEEE.coloc.logsum (doubles five_large) = Some (Fin (IZR (10 ^ 17))) /\
  IEEE.coloc.posteriors (doubles five_large) = doubles [1; 1; 0; 0; 0] /\
  Rsum [1; 1; 0; 0; 0] = 2 /\
  ~ Rabs (Rsum [1; 1; 0; 0; 0] - 1) <= / IZR (10 ^ 9) /\
  IEEE.coloc.posteriors
    [Some (Fin 0); Some (Fin 0); Some (Fin 0); None; Some (Fin 0)]
  = [None; None; None; None; None].
Proof.
  pose proof tiny_bounds as Htiny. pose proof overflow_bounds as Hover.
  pose proof absorbed_bounds as [[Ha0 Ha1] _].
  set (big := IZR (10 ^ 17)).
  assert (Hbig : 800 < big) by (unfold big; ieee_consts; lra).
  assert (Hmax : IEEE.F.array_max (doubles five_large) = Some (Fin big)).
  { unfold five_large. fold big. cbn.
    rewrite (Rmax_left big big) by lra.
    now rewrite !(Rmax_left big 0) by lra. }
  assert (Hterm0 : IEEE.F.exp (IEEE.F.sub (Some (Fin 0)) (Some (Fin big)))
                   = Some (Fin 0)).
  { rewrite ieee_sub_fin, sum_of_0_l. cbn [IEEE.F.exp option_map].
    f_equal. apply exp_underflows. lra. }
  assert (H11 : IEEE.sum_of 1 1 = Fin 2).
  { destruct (sum_of_cases 1 1) as [[_ H] | [[_ H] | [-> _]]].
    - rewrite Rabs_pos_eq in H by lra. lra.
    - rewrite Rabs_pos_eq in H by lra. lra.
    - replace (1 + 1) with 2 by lra. apply range_above_tiny; lra. }
  destruct (ln_le_minus_1 2) as [HL0 HL1]; [lra |].
  assert (HL : exists L, IEEE.range (ln 2) = Fin L /\ 0 <= L <= 1).
  { destruct (range_fin (ln 2)) as [[-> _] | [-> _]]; [lra | |].
    - exists 0. split; [reflexivity | lra].
    - exists (ln 2). split; [reflexivity | lra]. }
  destruct HL as (L & HL & HL01).
  assert (Hlost : IEEE.sum_of big L = Fin big).
  { unfold IEEE.sum_of.
    destruct (Rle_dec (Rabs L) (Rabs big * IEEE.absorbed)) as [_ | Hn];
      [reflexivity |].
    exfalso. apply Hn. rewrite !Rabs_pos_eq by lra.
    apply Rle_trans with 1; [lra |].
    unfold big. ieee_consts. lra. }
  assert (Hlogsum : IEEE.coloc.logsum (doubles five_large) = Some (Fin big)).
  { unfold IEEE.coloc.logsum. rewrite Hmax.
    unfold five_large, doubles, IEEE.F.transform, IEEE.F.aggregate,
      IEEE.F.lit.
    fold big. cbn [map fold_left]. rewrite ieee_term_max, Hterm0.
    rewrite ieee_add_fin, sum_of_0_l, ieee_add_fin, H11.
    repeat (rewrite ieee_add_fin, sum_of_0_r).
    rewrite ieee_log_fin, HL by lra.
    now rewrite ieee_add_fin, Hlost. }
  split; [exact Hlogsum |]. split; [| split; [| split]].
  - unfold IEEE.coloc.posteriors. rewrite Hlogsum.
    unfold five_large, doubles, IEEE.F.transform.
    fold big. cbn [map]. now rewrite ieee_term_max, Hterm0.
  - simpl. lra.
  - simpl. replace (1 + (1 + (0 + (0 + (0 + 0)))) - 1) with 1 by lra.
    rewrite Rabs_R1. intro H.
    assert (Hsmall : / IZR (10 ^ 9) < 1).
    { rewrite <- Rinv_1. apply Rinv_lt_contravar; ieee_consts; lra. }
    lra.
  - reflexivity.
Qed.

(** C6, amended: over the reals the five posteriors are
    exp (lH_i - LogSumExp lH) and their sum is 1.  In doubles [logsum]
    of five numbers is a number that is not below the largest of them,
    so that each posterior, the exponential of lH_i less [logsum], is a
    number of [0, 1].  With a NULL among the values every posterior is
    NULL. *)
Theorem posteriors_lie_in_unit_interval
        (lH : list R) (Hfive : List.length lH = 5%nat)
        (Hdbl : forall x, In x lH -> in_double_range x) :
  coloc.posteriors (cells lH)
  = cells (map (fun x => exp (x - LogSumExp lH)) lH) /\
  Rsum (map (fun x => exp (x - LogSumExp lH)) lH) = 1 /\
  exists y : R,
    IEEE.coloc.logsum (doubles lH) = Some (Fin y) /\
    (forall x, In x lH -> x <= y) /\
    IEEE.coloc.posteriors (doubles lH)
    = map (fun x => IEEE.F.exp (IEEE.F.sub (Some (Fin x)) (Some (Fin y)))) lH /\
    List.length (IEEE.coloc.posteriors (doubles lH)) = 5%nat /\
    (forall p, In p (IEEE.coloc.posteriors (doubles lH)) ->
               exists t : R, p = Some (Fin t) /\ 0 <= t <= 1) /\
    forall v : list (option xdouble),
      In None v -> forall p, In p (IEEE.coloc.posteriors v) -> p = None.
Proof.
  pose proof tiny_bounds as Htiny.
  assert (Hne : lH <> []) by (intros ->; discriminate).
  split; [now apply posteriors_cells |].
  split; [now apply posteriors_sum_one |].
  assert (Hfin : exists x, In (Fin x) (map Fin lH)).
  { destruct lH as [| x lH]; [congruence |]. exists x. now left. }
  assert (Hok : forall e, In e (map Fin lH) -> below_infinity e).
  { intros e He. apply in_map_iff in He as (x & <- & Hx). now apply Hdbl. }
  assert (Hlen : (Z.of_nat (List.length (map Fin lH)) < 2 ^ 31)%Z)
    by (rewrite length_map, Hfive; reflexivity).
  destruct (ieee_logsum_finite (map Fin lH) Hfin Hok Hlen)
    as (m & S & y & _ & Hall & _ & _ & _ & Hy & Hmy).
  assert (Hle : forall x, In x lH -> x <= y).
  { intros x Hx. apply Rle_trans with m; [| exact Hmy].
    apply Hall. now apply in_map. }
  assert (Hpost : IEEE.coloc.posteriors (doubles lH)
                  = map (fun x => IEEE.F.exp
                                    (IEEE.F.sub (Some (Fin x)) (Some (Fin y))))
                        lH).
  { unfold IEEE.coloc.posteriors, doubles, IEEE.F.transform in *.
    now rewrite Hy, !map_map. }
  exists y. split; [exact Hy |]. split; [exact Hle |].
  split; [exact Hpost |].
  rewrite Hpost, length_map. split; [exact Hfive |].
  split.
  - intros p Hp. apply in_map_iff in Hp as (x & <- & Hx).
    destruct (ieee_term_fin x y (Hle x Hx)) as (t & Ht & Hpos & Ht1).
    exists t. split; [exact Ht |]. destruct Hpos; lra.
  - intros v Hnull p Hp. unfold IEEE.coloc.posteriors, IEEE.F.transform in Hp.
    rewrite (ieee_logsum_with_null v Hnull) in Hp.
    apply in_map_iff in Hp as (c & <- & _).
    now rewrite ieee_sub_null_r.
Qed.

Lemma posteriors_lie_in_unit_interval_witness :
  List.length five_large = 5%nat /\
  (forall x, In x five_large -> in_double_range x) /\
  Rsum (map (fun x => exp (x - LogSumExp five_large)) five_large) = 1 /\
  exists y : R,
    IEEE.coloc.logsum (doubles five_large) = Some (Fin y) /\
    (forall x, In x five_large -> x <= y) /\
    IEEE.coloc.posteriors (doubles five_large)
    = map (fun x => IEEE.F.exp (IEEE.F.sub (Some (Fin x)) (Some (Fin y))))
          five_large /\
    List.length (IEEE.coloc.posteriors (doubles five_large)) = 5%nat /\
    (forall p, In p (IEEE.coloc.posteriors (doubles five_large)) ->
               exists t : R, p = Some (Fin t) /\ 0 <= t <= 1) /\
    forall v : list (option xdouble),
      In None v -> forall p, In p (IEEE.coloc.posteriors v) -> p = None.
Proof.
  assert (Hfive : List.length five_large = 5%nat) by reflexivity.
  assert (Hdbl : forall x, In x five_large -> in_double_range x).
  { assert (Hbig : in_double_range (IZR (10 ^ 17))).
    { apply in_double_range_between.
      pose proof tiny_bounds. split; ieee_consts; lra. }
    intros x [<- | [<- | [<- | [<- | [<- | []]]]]];
      try exact Hbig; apply in_double_range_0. }
  split; [exact Hfive |]. split; [exact Hdbl |].
  exact (proj2 (posteriors_lie_in_unit_interval five_large Hfive Hdbl)).
Defined.

(** ** Pairs of one tag variant, on doubles *)

Lemma ieee_logsum_null : IEEE.coloc.logsum [None] = None.
Proof. reflexivity. Qed.

(** [logsum] of one double: the double itself when it is a number, NaN
    when it is an infinity, whose difference with itself is NaN. *)
Lemma ieee_logsum_singleton (e : xdouble) :
  IEEE.coloc.logsum [Some e]
  = Some (match e with Fin a => Fin a | _ => NaN end).
Proof.
  destruct e as [a | | |]; try reflexivity.
  unfold IEEE.coloc.logsum, IEEE.F.array_max, IEEE.F.transform,
    IEEE.F.aggregate, IEEE.F.lit.
  cbn [map fold_left IEEE.F.max_skip_null].
  rewrite ieee_term_max.
  rewrite ieee_add_fin, sum_of_0_l.
  rewrite ieee_log_fin, ln_1, range_0 by lra.
  now rewrite ieee_add_fin, sum_of_0_r.
Qed.

Lemma ieee_colocalisation_app (a b : list IEEE.OverlapRow) (p1 p2 p12 : R) :
  IEEE.coloc.colocalisation (a ++ b) p1 p2 p12
  = (IEEE.coloc.colocalisation a p1 p2 p12
     ++ IEEE.coloc.colocalisation b p1 p2 p12)%list.
Proof.
  unfold IEEE.coloc.colocalisation. now rewrite filter_app, map_app.
Qed.

Lemma ieee_row_dropped
      (pre post : list IEEE.OverlapRow) (row : IEEE.OverlapRow)
      (p1 p2 p12 : R) :
  IEEE.coloc.not_degenerate row = false ->
  IEEE.coloc.colocalisation (pre ++ row :: post) p1 p2 p12
  = IEEE.coloc.colocalisation (pre ++ post) p1 p2 p12.
Proof.
  intro H. rewrite !ieee_colocalisation_app. f_equal.
  unfold IEEE.coloc.colocalisation. simpl. now rewrite H.
Qed.

Lemma ieee_row_kept
      (pre post : list IEEE.OverlapRow) (row : IEEE.OverlapRow)
      (p1 p2 p12 : R) :
  IEEE.coloc.not_degenerate row = true ->
  IEEE.coloc.colocalisation (pre ++ row :: post) p1 p2 p12
  = (IEEE.coloc.colocalisation pre p1 p2 p12
     ++ IEEE.coloc.result_row p1 p2 p12 row
     :: IEEE.coloc.colocalisation post p1 p2 p12)%list.
Proof.
  intro H. rewrite ieee_colocalisation_app. f_equal.
  unfold IEEE.coloc.colocalisation. simpl. now rewrite H.
Qed.

(** The sum of two doubles that are numbers is an infinity exactly when
    the exact sum is beyond the range. *)
Lemma sum_of_within_range (a b : R) :
  Rabs (a + b) < IEEE.overflow -> exists s : R, IEEE.sum_of a b = Fin s.
Proof.
  intro Hin.
  destruct (sum_of_cases a b) as [[-> _] | [[-> _] | [-> _]]]; eauto.
  destruct (range_fin (a + b)) as [[-> _] | [-> _]]; eauto.
  revert Hin. unfold Rabs. destruct (Rcase_abs (a + b)); lra.
Qed.

Lemma sum_of_beyond_range (a b : R) :
  in_double_range a -> in_double_range b ->
  IEEE.overflow <= Rabs (a + b) ->
  IEEE.sum_of a b = PosInf \/ IEEE.sum_of a b = NegInf.
Proof.
  intros [Ha _] [Hb _] Hout.
  pose proof absorbed_bounds as [[Ha0 Ha1] Hgap].
  pose proof (Rabs_triang a b) as Htri.
  pose proof (Rabs_pos a) as Hpa. pose proof (Rabs_pos b) as Hpb.
  destruct (sum_of_cases a b) as [[_ H] | [[_ H] | [-> _]]].
  - exfalso. nra.
  - exfalso. nra.
  - now apply range_overflow.
Qed.

(** The columns of the filter on a pair of two numbers. *)
Lemma ieee_singleton_numbers (row : IEEE.OverlapRow) (a b : R) :
  IEEE.left_logABF row = [Some (Fin a)] ->
  IEEE.right_logABF row = [Some (Fin b)] ->
  in_double_range a -> in_double_range b ->
  IEEE.coloc.logsum1 row = Some (Fin a) /\
  IEEE.coloc.logsum2 row = Some (Fin b) /\
  IEEE.coloc.sumlogsum row = Some (IEEE.sum_of a b) /\
  (Rabs (a + b) < IEEE.overflow ->
   IEEE.coloc.logsum12 row = IEEE.coloc.sumlogsum row /\
   IEEE.coloc.not_degenerate row = false) /\
  (IEEE.overflow <= Rabs (a + b) ->
   IEEE.coloc.logsum12 row = Some NaN /\
   IEEE.coloc.not_degenerate row = true).
Proof.
  intros Hl Hr Ha Hb.
  assert (H1 : IEEE.coloc.logsum1 row = Some (Fin a)).
  { unfold IEEE.coloc.logsum1. now rewrite Hl, ieee_logsum_singleton. }
  assert (H2 : IEEE.coloc.logsum2 row = Some (Fin b)).
  { unfold IEEE.coloc.logsum2. now rewrite Hr, ieee_logsum_singleton. }
  assert (Hs : IEEE.coloc.sumlogsum row = Some (IEEE.sum_of a b)).
  { unfold IEEE.coloc.sumlogsum. now rewrite H1, H2. }
  assert (H12 : IEEE.coloc.logsum12 row
                = IEEE.coloc.logsum [Some (IEEE.sum_of a b)]).
  { unfold IEEE.coloc.logsum12, IEEE.coloc.sum_logABF.
    now rewrite Hl, Hr. }
  split; [exact H1 |]. split; [exact H2 |]. split; [exact Hs |].
  unfold IEEE.coloc.not_degenerate. rewrite Hs, H12, ieee_logsum_singleton.
  split.
  - intro Hin. destruct (sum_of_within_range a b Hin) as (s & ->).
    split; [reflexivity |].
    cbn [IEEE.F.neq IEEE.xeq]. now destruct (Req_dec_T s s).
  - intro Hout.
    destruct (sum_of_beyond_range a b Ha Hb Hout) as [-> | ->];
      split; reflexivity.
Qed.

(** Of the pairs of one tag variant, the filter lets through those, and
    only those, of two numbers whose sum is beyond the range of
    doubles. *)
Lemma ieee_singleton_kept_iff (row : IEEE.OverlapRow) (l r : option xdouble) :
  IEEE.left_logABF row = [l] -> IEEE.right_logABF row = [r] ->
  (forall a, l = Some (Fin a) -> in_double_range a) ->
  (forall b, r = Some (Fin b) -> in_double_range b) ->
  (IEEE.coloc.not_degenerate row = true <->
   exists a b : R,
     l = Some (Fin a) /\ r = Some (Fin b) /\ IEEE.overflow <= Rabs (a + b)).
Proof.
  intros Hl Hr Hdl Hdr.
  destruct l as [[a | | |] |], r as [[b | | |] |];
    try (split;
         [ intro Hkept; exfalso; revert Hkept;
           unfold IEEE.coloc.not_degenerate, IEEE.coloc.sumlogsum,
             IEEE.coloc.logsum12, IEEE.coloc.logsum1, IEEE.coloc.logsum2,
             IEEE.coloc.sum_logABF;
           rewrite Hl, Hr;
           cbn [IEEE.F.arrays_zip IEEE.F.transform map fst snd
                  IEEE.F.add IEEE.F.lift2 IEEE.xadd];
           rewrite ?ieee_logsum_singleton, ?ieee_logsum_null;
           cbn; discriminate
         | intros (a' & b' & Ha' & Hb' & _); discriminate ]).
  destruct (ieee_singleton_numbers row a b Hl Hr
              (Hdl a eq_refl) (Hdr b eq_refl))
    as (_ & _ & _ & Hin & Hout).
  split.
  - intro Hkept.
    exists a, b. split; [reflexivity |]. split; [reflexivity |].
    destruct (Rlt_le_dec (Rabs (a + b)) IEEE.overflow) as [Hlt | Hle];
      [| exact Hle].
    destruct (Hin Hlt) as [_ Hdrop]. congruence.
  - intros (a' & b' & Ha' & Hb' & Hover).
    injection Ha' as <-. injection Hb' as <-. now apply Hout.
Qed.

(** C9 as it is stated, against the pair of [[1e308]] and [[1e308]]: each
    [logsum] is 1e308, their sum is +infinity, [logsum12] is NaN, and
    the pair goes through the filter. *)
Lemma overflowing_singleton_pair_is_kept :
  IEEE.left_logABF pair_overflowing = [Some (Fin (IZR (10 ^ 308)))] /\
  IEEE.right_logABF pair_overflowing = [Some (Fin (IZR (10 ^ 308)))] /\
  IEEE.coloc.sumlogsum pair_overflowing = Some PosInf /\
  IEEE.coloc.logsum12 pair_overflowing = Some NaN /\
  IEEE.coloc.colocalisation [pair_overflowing] (/ 2) (/ 2) (/ 2)
  = [IEEE.coloc.result_row (/ 2) (/ 2) (/ 2) pair_overflowing].
Proof.
  pose proof tiny_bounds as Htiny.
  pose proof absorbed_bounds as [[Ha0 Ha1] _].
  set (big := IZR (10 ^ 308)).
  assert (Hpos : 1 < big) by (unfold big; ieee_consts; lra).
  assert (Hd : in_double_range big).
  { apply in_double_range_between. unfold big. split; ieee_consts; lra. }
  assert (Hover : IEEE.overflow <= Rabs (big + big)).
  { rewrite Rabs_pos_eq by lra. unfold big. ieee_consts. lra. }
  destruct (ieee_singleton_numbers pair_overflowing big big
              eq_refl eq_refl Hd Hd) as (_ & _ & Hs & _ & Hout).
  destruct (Hout Hover) as [H12 Hkept].
  split; [reflexivity |]. split; [reflexivity |].
  split; [| split; [exact H12 |]].
  - rewrite Hs. f_equal.
    destruct (sum_of_cases big big) as [[_ H] | [[_ H] | [-> _]]].
    + rewrite Rabs_pos_eq in H by lra. nra.
    + rewrite Rabs_pos_eq in H by lra. nra.
    + unfold IEEE.range.
      destruct (Rle_dec IEEE.overflow (big + big)) as [_ | Hn];
        [reflexivity |].
      exfalso. apply Hn. rewrite Rabs_pos_eq in Hover by lra. exact Hover.
  - unfold IEEE.coloc.colocalisation. simpl. now rewrite Hkept.
Qed.

(** C9, amended: [colocalisation] emits no row for a pair of one tag
    variant, whatever the priors, unless its two elements are numbers
    whose sum is beyond the range of doubles.  For two numbers each
    [logsum] is its element and [sumlogsum] is their sum in doubles;
    within the range [logsum12] is that sum as well, beyond it
    [sumlogsum] is an infinity and [logsum12] NaN, and the pair gives a
    row. *)
Theorem singleton_pairs_emit_a_row_only_on_overflow
        (pre post : list IEEE.OverlapRow) (row : IEEE.OverlapRow)
        (l r : option xdouble) (p1 p2 p12 : R)
        (Hl : IEEE.left_logABF row = [l])
        (Hr : IEEE.right_logABF row = [r])
        (Hdl : forall a, l = Some (Fin a) -> in_double_range a)
        (Hdr : forall b, r = Some (Fin b) -> in_double_range b) :
  (IEEE.coloc.not_degenerate row = true <->
   exists a b : R,
     l = Some (Fin a) /\ r = Some (Fin b) /\
     IEEE.overflow <= Rabs (a + b)) /\
  (forall a b : R,
      l = Some (Fin a) -> r = Some (Fin b) ->
      IEEE.coloc.logsum1 row = Some (Fin a) /\
      IEEE.coloc.logsum2 row = Some (Fin b) /\
      IEEE.coloc.sumlogsum row = Some (IEEE.sum_of a b) /\
      (Rabs (a + b) < IEEE.overflow ->
       IEEE.coloc.logsum12 row = IEEE.coloc.sumlogsum row) /\
      (IEEE.overflow <= Rabs (a + b) ->
       (IEEE.coloc.sumlogsum row = Some PosInf \/
        IEEE.coloc.sumlogsum row = Some NegInf) /\
       IEEE.coloc.logsum12 row = Some NaN)) /\
  (IEEE.coloc.not_degenerate row = false ->
   IEEE.coloc.colocalisation (pre ++ row :: post) p1 p2 p12
   = IEEE.coloc.colocalisation (pre ++ post) p1 p2 p12) /\
  (IEEE.coloc.not_degenerate row = true ->
   IEEE.coloc.colocalisation (pre ++ row :: post) p1 p2 p12
   = (IEEE.coloc.colocalisation pre p1 p2 p12
      ++ IEEE.coloc.result_row p1 p2 p12 row
      :: IEEE.coloc.colocalisation post p1 p2 p12)%list).
Proof.
  split; [now apply ieee_singleton_kept_iff |].
  split; [| split; [apply ieee_row_dropped | apply ieee_row_kept]].
  intros a b -> ->.
  destruct (ieee_singleton_numbers row a b Hl Hr
              (Hdl a eq_refl) (Hdr b eq_refl))
    as (H1 & H2 & Hs & Hin & Hout).
  split; [exact H1 |]. split; [exact H2 |]. split; [exact Hs |].
  split; intro H; [now apply Hin |].
  split; [| now apply Hout].
  rewrite Hs.
  destruct (sum_of_beyond_range a b (Hdl a eq_refl) (Hdr b eq_refl) H)
    as [-> | ->]; [now left | now right].
Qed.

Lemma singleton_pairs_emit_a_row_only_on_overflow_witness :
  let row := sample_doubles [Fin 5] [Fin 5] in
  IEEE.left_logABF row = [Some (Fin 5)] /\
  IEEE.right_logABF row = [Some (Fin 5)] /\
  in_double_range 5 /\
  Rabs (5 + 5) < IEEE.overflow /\
  IEEE.coloc.logsum1 row = Some (Fin 5) /\
  IEEE.coloc.logsum2 row = Some (Fin 5) /\
  IEEE.coloc.sumlogsum row = Some (IEEE.sum_of 5 5) /\
  IEEE.coloc.logsum12 row = IEEE.coloc.sumlogsum row /\
  IEEE.coloc.not_degenerate row <> true /\
  IEEE.coloc.colocalisation ([] ++ row :: []) (/ 2) (/ 2) (/ 2)
  = IEEE.coloc.colocalisation ([] ++ []) (/ 2) (/ 2) (/ 2).
Proof.
  intro row.
  pose proof tiny_bounds as Htiny.
  assert (Hd : in_double_range 5).
  { apply in_double_range_between. split; [lra | ieee_consts; lra]. }
  assert (Hin : Rabs (5 + 5) < IEEE.overflow).
  { rewrite Rabs_pos_eq by lra. ieee_consts. lra. }
  assert (Hdl : forall a, Some (Fin 5) = Some (Fin a) -> in_double_range a).
  { intros a Ha. now injection Ha as <-. }
  destruct (singleton_pairs_emit_a_row_only_on_overflow
              [] [] row (Some (Fin 5)) (Some (Fin 5)) (/ 2) (/ 2) (/ 2)
              eq_refl eq_refl Hdl Hdl)
    as (Hiff & Hvalues & Hdrop & _).
  destruct (Hvalues 5 5 eq_refl eq_refl) as (H1 & H2 & Hs & H12 & _).
  assert (Hnot : IEEE.coloc.not_degenerate row <> true).
  { intro Hkept. apply Hiff in Hkept as (a & b & Ha & Hb & Hover).
    injection Ha as <-. injection Hb as <-. lra. }
  split; [reflexivity |]. split; [reflexivity |]. split; [exact Hd |].
  split; [exact Hin |]. split; [exact H1 |]. split; [exact H2 |].
  split; [exact Hs |]. split; [exact (H12 Hin) |]. split; [exact Hnot |].
  apply Hdrop. now destruct (IEEE.coloc.not_degenerate row).
Defined.

(** ** [logsum] on an empty array, and where it is a number *)

(** C10 as it is stated, against the empty array: [logsum] evaluates to
    NULL, a cell like any other, and a job that meets a pair with empty
    vectors goes on to the next pair.  Against the second half: with a NaN
    next to a number [logsum] is NaN, with a NULL next to a number it is
    NULL. *)
Lemma logsum_empty_raises_nothing :
  coloc.logsum [] = None /\
  coloc.colocalisation [pair_empty; pair_flat] (/ 2) (/ 2) (/ 2)
  = [coloc.result_row (/ 2) (/ 2) (/ 2) pair_flat] /\
  IEEE.coloc.logsum [Some NaN; Some (Fin 1)] = Some NaN /\
  IEEE.coloc.logsum [Some (Fin 1); None] = None.
Proof.
  split; [reflexivity |]. split; [| split].
  - rewrite (colocalisation_cons_dropped _ _ _ _ _ pair_empty_dropped).
    now rewrite (colocalisation_cons_kept _ _ _ _ _ pair_flat_kept).
  - reflexivity.
  - unfold IEEE.coloc.logsum, IEEE.F.array_max, IEEE.F.transform,
      IEEE.F.aggregate.
    cbn [map fold_left IEEE.F.max_skip_null IEEE.F.sub IEEE.F.lift2
           IEEE.F.exp option_map].
    now destruct (IEEE.F.add (IEEE.F.lit 0) _).
Qed.

(** C10, amended: [logsum] raises nothing on the empty array, it is NULL
    there, and [colocalisation] leaves out, without a word, a pair one of
    whose vectors is empty; on every array of doubles with a number among
    its elements and no +infinity, NaN or NULL element, -infinity
    allowed, [logsum] is a number. *)
Theorem logsum_null_only_without_elements
        (pre post : list OverlapRow) (row : OverlapRow) (p1 p2 p12 : R)
        (a : list xdouble) :
  coloc.logsum [] = None /\
  IEEE.coloc.logsum [] = None /\
  (left_logABF row = [] \/ right_logABF row = [] ->
   coloc.not_degenerate row = false /\
   coloc.colocalisation (pre ++ row :: post) p1 p2 p12
   = coloc.colocalisation (pre ++ post) p1 p2 p12) /\
  ((exists x, In (Fin x) a) ->
   (forall e, In e a -> below_infinity e) ->
   (Z.of_nat (List.length a) < 2 ^ 31)%Z ->
   exists y : R, IEEE.coloc.logsum (map Some a) = Some (Fin y)).
Proof.
  split; [reflexivity |]. split; [reflexivity |]. split.
  - intro Hempty.
    assert (Hdrop : coloc.not_degenerate row = false).
    { unfold coloc.not_degenerate, coloc.sumlogsum,
        coloc.logsum1, coloc.logsum2.
      destruct Hempty as [-> | ->]; rewrite logsum_nil.
      - reflexivity.
      - now rewrite add_null_r. }
    split; [exact Hdrop |].
    now apply dropped_row_contributes_nothing.
  - intros Hfin Hok Hlen.
    destruct (ieee_logsum_finite a Hfin Hok Hlen)
      as (m & S & y & _ & _ & _ & _ & _ & Hy & _).
    now exists y.
Qed.

Lemma logsum_null_only_without_elements_witness :
  (left_logABF pair_empty = [] \/ right_logABF pair_empty = []) /\
  (exists x, In (Fin x) [Fin 0; NegInf]) /\
  below_infinity (Fin 0) /\ below_infinity NegInf /\
  coloc.not_degenerate pair_empty = false /\
  coloc.colocalisation ([pair_flat] ++ pair_empty :: []) (/ 2) (/ 2) (/ 2)
  = coloc.colocalisation ([pair_flat] ++ []) (/ 2) (/ 2) (/ 2) /\
  exists y : R,
    IEEE.coloc.logsum (map Some [Fin 0; NegInf]) = Some (Fin y).
Proof.
  assert (Hempty : left_logABF pair_empty = [] \/ right_logABF pair_empty = [])
    by (left; reflexivity).
  assert (Hfin : exists x, In (Fin x) [Fin 0; NegInf])
    by (exists 0; now left).
  assert (H0 : below_infinity (Fin 0)) by exact in_double_range_0.
  assert (Hok : forall e, In e [Fin 0; NegInf] -> below_infinity e).
  { intros e [<- | [<- | []]]; [exact H0 | exact I]. }
  assert (Hlen : (Z.of_nat (List.length [Fin 0; NegInf]) < 2 ^ 31)%Z)
    by reflexivity.
  destruct (logsum_null_only_without_elements
              [pair_flat] [] pair_empty (/ 2) (/ 2) (/ 2) [Fin 0; NegInf])
    as (_ & _ & Hdrop & Hvalue).
  destruct (Hdrop Hempty) as [Hkeep Hout].
  split; [exact Hempty |]. split; [exact Hfin |].
  split; [exact H0 |]. split; [exact I |].
  split; [exact Hkeep |]. split; [exact Hout |].
  exact (Hvalue Hfin Hok Hlen).
Defined.

(** ** Maps of tags *)

Section Maps.
Import SQL.
Open Scope string_scope.

Lemma has_key_In (m : smap) (k : string) :
  has_key m k = true <-> In k (map_keys m).
Proof.
  unfold has_key, map_keys. rewrite existsb_exists, in_map_iff.
  split.
  - intros (e & Hin & Heq). apply String.eqb_eq in Heq. now exists e.
  - intros (e & Heq & Hin). exists e. split; [exact Hin |].
    now apply String.eqb_eq.
Qed.

Lemma has_key_false (m : smap) (k : string) :
  has_key m k = false <-> ~ In k (map_keys m).
Proof.
  rewrite <- has_key_In. destruct (has_key m k); split; congruence.
Qed.

Lemma get_absent (m : smap) (k : string) :
  ~ In k (map_keys m) -> get m k = None.
Proof.
  unfold get, map_keys. induction m as [|e m IH]; simpl; intro H.
  - reflexivity.
  - destruct (String.eqb_spec (fst e) k) as [Heq | Hneq].
    + exfalso. apply H. now left.
    + apply IH. intro Hin. apply H. now right.
Qed.

(** The value under a key of the map is the value of one of its
    entries. *)
Lemma get_present (m : smap) (k : string) :
  In k (map_keys m) -> exists v, In (k, v) m /\ get m k = v.
Proof.
  unfold get, map_keys. induction m as [|[k' v'] m IH]; simpl; intro H.
  - contradiction.
  - destruct (String.eqb_spec k' k) as [-> | Hneq].
    + exists v'. split; [now left | reflexivity].
    + destruct H as [H | H]; [contradiction |].
      destruct (IH H) as (v & Hin & Hget).
      exists v. split; [now right | exact Hget].
Qed.

Lemma put_keys (m : smap) (k : string) (v : option R) :
  In k (map_keys m) -> map_keys (put m k v) = map_keys m.
Proof.
  unfold map_keys. induction m as [|e m IH]; simpl; intro H.
  - contradiction.
  - destruct (String.eqb_spec (fst e) k) as [Heq | Hneq]; simpl.
    + now rewrite Heq.
    + f_equal. apply IH. destruct H as [H | H]; [contradiction | exact H].
Qed.

Lemma put_entries (m : smap) (k : string) (v : option R) (e : string * option R) :
  In e (put m k v) -> In e m \/ e = (k, v).
Proof.
  induction m as [|e' m IH]; simpl.
  - intros [<- | []]. now right.
  - destruct (fst e' =? k); simpl.
    + intros [<- | H]; [now right | left; now right].
    + intros [<- | H]; [left; now left |].
      destruct (IH H) as [H' | H']; [left; now right | now right].
Qed.

Lemma NoDup_snoc (l : list string) (k : string) :
  NoDup l -> ~ In k l -> NoDup (l ++ [k]).
Proof.
  induction l as [|x l IH]; simpl; intros Hnd Hk.
  - constructor; [tauto | constructor].
  - inversion Hnd as [|? ? Hx Hl]; subst.
    constructor.
    + rewrite in_app_iff. simpl. intros [H | [H | []]]; [tauto |].
      apply Hk. now left.
    + apply IH; [exact Hl |]. intro H. apply Hk. now right.
Qed.

(** What the map builder returns when it does not fail: a map without
    repeated keys, whose keys are those of the entries and whose values are
    values of the entries. *)
Lemma build_map_spec (policy : MapKeyDedupPolicy)
      (entries : list (option string * option R)) (acc m : smap) :
  build_map policy entries acc = Some m ->
  NoDup (map_keys acc) ->
  NoDup (map_keys m) /\
  (forall k, In k (map_keys m) <->
             In k (map_keys acc) \/ In (Some k) (map fst entries)) /\
  (forall k v, In (k, v) m -> In (k, v) acc \/ In (Some k, v) entries).
Proof.
  revert acc. induction entries as [|[[k|] v] rest IH]; intros acc Hb Hnd;
    simpl in Hb.
  - injection Hb as <-. repeat split; auto.
    + intros [H | []]. exact H.
  - destruct (has_key acc k) eqn:Hk.
    + destruct policy; [discriminate |].
      apply has_key_In in Hk.
      destruct (IH _ Hb) as (Hnd' & Hkeys & Hvals).
      { now rewrite put_keys. }
      split; [exact Hnd' |]. split.
      * intro k'. rewrite Hkeys, put_keys by exact Hk. simpl.
        split; [tauto |].
        intros [H | [H | H]]; [tauto | | tauto].
        injection H as <-. now left.
      * intros k' v' Hin. destruct (Hvals _ _ Hin) as [H | H].
        -- apply put_entries in H as [H | H]; [now left |].
           injection H as -> ->. right. now left.
        -- right. now right.
    + apply has_key_false in Hk.
      destruct (IH _ Hb) as (Hnd' & Hkeys & Hvals).
      { unfold map_keys. rewrite map_app. simpl.
        now apply NoDup_snoc. }
      split; [exact Hnd' |]. split.
      * intro k'. rewrite Hkeys. unfold map_keys. rewrite map_app, in_app_iff.
        simpl. split.
        -- intros [[H | [H | []]] | H]; auto.
           right. left. now rewrite H.
        -- intros [H | [H | H]]; auto.
           injection H as <-. left. right. now left.
      * intros k' v' Hin. destruct (Hvals _ _ Hin) as [H | H].
        -- apply in_app_iff in H as [H | [H | []]]; [now left |].
           injection H as -> ->. right. now left.
        -- right. now right.
  - discriminate.
Qed.
End Maps.

(** ** Zipping two maps *)

Section Zip.
Import SQL.
Open Scope string_scope.

Lemma distinct_In (l : list string) (x : string) :
  In x (distinct l) <-> In x l.
Proof.
  induction l as [|y l IH]; simpl; [tauto |].
  rewrite filter_In, IH, negb_true_iff.
  destruct (String.eqb_spec x y) as [-> | Hneq].
  - split; [intros [H | [_ H]]; [now left | discriminate] | now left].
  - split.
    + intros [H | [H _]]; [now left | now right].
    + intros [H | H]; [now left | right; now split].
Qed.

Lemma distinct_NoDup (l : list string) : NoDup (distinct l).
Proof.
  induction l as [|y l IH]; simpl; constructor.
  - rewrite filter_In, negb_true_iff, String.eqb_refl.
    intros [_ H]. discriminate.
  - now apply NoDup_filter.
Qed.

Lemma map_values_zip (m1 m2 : smap)
      (f : string -> option R -> option R -> option R) :
  map_values (map_zip_with m1 m2 f)
  = map (fun k => f k (get m1 k) (get m2 k))
        (distinct (map_keys m1 ++ map_keys m2)%list).
Proof.
  unfold map_values, map_zip_with. now rewrite map_map.
Qed.
End Zip.

(** ** Rows of [credSet] and of the join *)

Section Pipeline.
Import SQL.
Import overlaps.
Open Scope string_scope.

Lemma same_eq (a b : option string) : same a b = true <-> a = b.
Proof.
  destruct a as [x|], b as [y|]; simpl; try (split; congruence).
  rewrite String.eqb_eq. split; congruence.
Qed.

Lemma same_ids_eq (a b : ids) : same_ids a b = true <-> a = b.
Proof.
  destruct a as [[k1 l1] t1], b as [[k2 l2] t2]. simpl.
  rewrite !andb_true_iff, String.eqb_eq, !same_eq.
  split; [intros [[-> ->] ->]; reflexivity | intro H; now inversion H].
Qed.

Lemma all_rows_In {A B : Type} (f : A -> option B)
      (rows : list A) (bs : list B) (b : B) :
  all_rows f rows = Some bs -> In b bs ->
  exists r, In r rows /\ f r = Some b.
Proof.
  revert bs. induction rows as [|r rows IH]; simpl; intros bs H Hin.
  - injection H as <-. contradiction.
  - destruct (f r) as [b0|] eqn:Hf; [| discriminate].
    destruct (all_rows f rows) as [bs0|]; [| discriminate].
    injection H as <-. destruct Hin as [<- | Hin].
    + exists r. split; [now left | exact Hf].
    + destruct (IH bs0 eq_refl Hin) as (r' & Hr' & Hf').
      exists r'. split; [now right | exact Hf'].
Qed.

Lemma dropDuplicates_incl {A K : Type} (same_key : K -> K -> bool)
      (key : A -> K) (rows : list A) (r : A) :
  In r (dropDuplicates same_key key rows) -> In r rows.
Proof.
  induction rows as [|r0 rows IH]; simpl; [tauto |].
  intros [<- | H]; [now left |].
  apply filter_In in H as [H _]. right. now apply IH.
Qed.

Lemma credSet_row (spark : SparkSession) (credSetPath : string)
      (cs : list CredSetRow) (c : CredSetRow) :
  credSet spark credSetPath = Some cs -> In c cs ->
  exists r,
    In r (credible_set spark credSetPath (idCols (cols c))) /\
    cols c = side_cols r /\
    tag_variant_id c = Parquet.tag_variant_id r /\
    map_from_entries (mapKeyDedupPolicy spark)
      (credible_set_entries spark credSetPath (idCols (cols c)))
    = Some (all_tags c).
Proof.
  unfold credSet. intros Hcs Hin.
  destruct (all_rows_In _ _ _ _ Hcs Hin) as (r & Hr & Hf).
  destruct (map_from_entries _ _) as [tags|] eqn:Htags; [| discriminate].
  simpl in Hf. injection Hf as <-. simpl.
  exists r. repeat split.
  - unfold credible_set. apply filter_In. split; [exact Hr |].
    now apply same_ids_eq.
  - exact Htags.
Qed.

Lemma entries_non_null (spark : SparkSession) (credSetPath : string)
      (i : ids) (k : option string) (v : option R) :
  In (k, v) (credible_set_entries spark credSetPath i) ->
  exists x, v = Some x.
Proof.
  unfold credible_set_entries, credible_set. intro H.
  apply in_map_iff in H as (r & Heq & Hr).
  apply filter_In in Hr as [Hr _]. apply filter_In in Hr as [_ Hnn].
  injection Heq as _ <-.
  destruct (Parquet.logABF r) as [x|]; [now exists x | discriminate].
Qed.

Lemma entries_keys (spark : SparkSession) (credSetPath : string)
      (i : ids) (k : string) :
  In (Some k) (map fst (credible_set_entries spark credSetPath i)) <->
  is_tag_of spark credSetPath i k.
Proof.
  unfold credible_set_entries, is_tag_of. rewrite map_map. simpl.
  rewrite in_map_iff. split; intros (r & H1 & H2); exists r; tauto.
Qed.

(** The map of tags of a credible set, when the builder accepts it. *)
Lemma all_tags_spec (spark : SparkSession) (credSetPath : string)
      (i : ids) (m : smap) :
  map_from_entries (mapKeyDedupPolicy spark)
    (credible_set_entries spark credSetPath i) = Some m ->
  NoDup (map_keys m) /\
  (forall k, In k (map_keys m) <-> is_tag_of spark credSetPath i k) /\
  (forall k, In k (map_keys m) ->
             exists x, get m k = Some x /\
                       In (Some k, Some x)
                          (credible_set_entries spark credSetPath i)).
Proof.
  unfold map_from_entries. intro Hb.
  destruct (build_map_spec _ _ _ _ Hb (NoDup_nil _))
    as (Hnd & Hkeys & Hvals).
  split; [exact Hnd |]. split.
  - intro k. rewrite Hkeys, <- entries_keys. simpl. tauto.
  - intros k Hk. destruct (get_present m k Hk) as (v & Hin & Hget).
    destruct (Hvals _ _ Hin) as [[] | Hent].
    destruct (entries_non_null _ _ _ _ _ Hent) as (x & ->).
    now exists x.
Qed.
End Pipeline.

(** ** Rows of the output *)

Section Overlaps.
Import SQL.
Import overlaps.
Open Scope string_scope.

Lemma join_on_holds (l r : CredSetRow) :
  F.holds (join_on l r) = true ->
  (exists t, tag_variant_id l = Some t /\ tag_variant_id r = Some t) /\
  (type (cols r) = Some "gwas" ->
   (studyKey (cols r) <? studyKey (cols l)) = true).
Proof.
  unfold join_on, eq, neq, gt.
  destruct (tag_variant_id l) as [tl|], (tag_variant_id r) as [tr|]; simpl;
    try (destruct (type (cols r)) as [ty|]; simpl;
         [destruct (negb (ty =? "gwas")) |];
         destruct (studyKey (cols r) <? studyKey (cols l));
         simpl; discriminate).
  destruct (String.eqb_spec tl tr) as [-> | Hneq].
  - intro H. split; [now exists tr |].
    intros Hty. rewrite Hty in H. simpl in H.
    destruct (studyKey (cols r) <? studyKey (cols l));
      [reflexivity | discriminate].
  - destruct (type (cols r)) as [ty|]; simpl;
      [destruct (negb (ty =? "gwas")) |];
      destruct (studyKey (cols r) <? studyKey (cols l));
      simpl; discriminate.
Qed.

Lemma is_gwas (c : SideCols) :
  F.holds (eq (type c) (Some "gwas")) = true -> type c = Some "gwas".
Proof.
  unfold eq. destruct (type c) as [ty|]; simpl; [| discriminate].
  destruct (String.eqb_spec ty "gwas") as [-> | _];
    [reflexivity | discriminate].
Qed.

(** Where a row of the output comes from: a GWAS row of [credSet] on the
    left, a row of [credSet] on the right, joined on their tag variant. *)
Lemma output_row_origin (cs : list CredSetRow) (row : OverlapRow) :
  In row (overlappingPeaksWithArrays (overlappingPeaks cs)) ->
  exists l r : CredSetRow,
    In l cs /\ In r cs /\
    type (cols l) = Some "gwas" /\
    F.holds (join_on l r) = true /\
    left_cols row = cols l /\ right_cols row = cols r /\
    left_logABF row
    = map_values (map_zip_with (all_tags l) (all_tags r)
                    (fun k v1 v2 => coalesce v1 (F.lit 0))) /\
    right_logABF row
    = map_values (map_zip_with (all_tags l) (all_tags r)
                    (fun k v1 v2 => coalesce v2 (F.lit 0))).
Proof.
  unfold overlappingPeaksWithArrays, overlappingPeaks. intro H.
  apply in_map_iff in H as (p & <- & Hp).
  apply dropDuplicates_incl in Hp.
  apply in_map_iff in Hp as ([l r] & <- & Hlr).
  unfold inner_join in Hlr.
  apply in_flat_map in Hlr as (l' & Hl & Hlr).
  apply in_map_iff in Hlr as (r' & Heq & Hr).
  injection Heq as -> ->.
  apply filter_In in Hl as [Hl Hgwas].
  apply filter_In in Hr as [Hr Hon].
  exists l, r. simpl. repeat split; try assumption.
  now apply is_gwas.
Qed.

Lemma NoDup_map_filter {A K : Type} (key : A -> K) (g : A -> bool)
      (rows : list A) :
  NoDup (map key rows) -> NoDup (map key (filter g rows)).
Proof.
  induction rows as [|r rows IH]; simpl; intro H; [constructor |].
  inversion H as [|? ? Hnotin Hnd]; subst.
  destruct (g r); simpl; [constructor |]; try now apply IH.
  intro Hin. apply Hnotin.
  apply in_map_iff in Hin as (r' & Heq & Hr').
  apply filter_In in Hr' as [Hr' _].
  apply in_map_iff. now exists r'.
Qed.

(** [dropDuplicates] leaves one row per key. *)
Lemma dropDuplicates_NoDup {A K : Type} (same_key : K -> K -> bool)
      (key : A -> K) (rows : list A) :
  (forall a b, same_key a b = true <-> a = b) ->
  NoDup (map key (dropDuplicates same_key key rows)).
Proof.
  intro Hsame. induction rows as [|r rows IH]; simpl; constructor.
  - intro Hin. apply in_map_iff in Hin as (r' & Heq & Hr').
    apply filter_In in Hr' as [_ Hneq].
    apply negb_true_iff in Hneq.
    assert (same_key (key r') (key r) = true) by now apply Hsame.
    congruence.
  - now apply NoDup_map_filter.
Qed.

Lemma same_peak_eq (a b : ids * ids) : same_peak a b = true <-> a = b.
Proof.
  destruct a as [a1 a2], b as [b1 b2]. unfold same_peak. simpl.
  rewrite andb_true_iff, !same_ids_eq.
  split; [intros [-> ->]; reflexivity | intro H; now inversion H].
Qed.

(** No two rows of the output compare the same two credible sets. *)
Lemma output_keys_NoDup (cs : list CredSetRow) :
  NoDup (map (fun row => (idCols (left_cols row), idCols (right_cols row)))
             (overlappingPeaksWithArrays (overlappingPeaks cs))).
Proof.
  unfold overlappingPeaksWithArrays. rewrite map_map. simpl.
  unfold overlappingPeaks.
  apply (dropDuplicates_NoDup same_peak peak_key). exact same_peak_eq.
Qed.

Lemma ltb_asym (a b : string) : (a <? b) = true -> (b <? a) = true -> False.
Proof.
  unfold String.ltb. rewrite (String.compare_antisym a b).
  destruct (String.compare b a); simpl; discriminate.
Qed.

Lemma ltb_irrefl (a : string) : (a <? a) = false.
Proof.
  destruct (a <? a) eqn:H; [| reflexivity].
  exfalso. exact (ltb_asym a a H H).
Qed.
End Overlaps.

Lemma sample_run :
  overlaps.findOverlappingSignals sample_session "credset"
  = Some [sample_overlap].
Proof. vm_compute. reflexivity. Qed.

Section Claims.
Import SQL.
Import overlaps.
Open Scope string_scope.

(** The aligned vector of a side: one cell per key of the zipped maps. *)
Lemma aligned_values (m1 m2 m : smap) (pick : option R -> option R -> option R) :
  (forall k, pick (get m1 k) (get m2 k) = get m k) ->
  map_values (map_zip_with m1 m2
                (fun k v1 v2 => coalesce (pick v1 v2) (F.lit 0)))
  = map (log_abf_or_zero m) (distinct (map_keys m1 ++ map_keys m2)%list).
Proof.
  intro Hpick. rewrite map_values_zip. apply map_ext. intro k.
  unfold log_abf_or_zero, coalesce, F.lit. now rewrite Hpick.
Qed.

(** C1: for every row of the output the two vectors are read off one list
    [U] of tag variants, without repetition, that holds exactly the tag
    variants of the left and of the right credible set: both have the
    length of [U], and at each index they give the [logABF] the tag variant
    of [U] at that index has in the credible set of their side, or 0 when
    that credible set lacks it. *)
Theorem aligned_vectors_over_union
        (spark : SparkSession) (credSetPath : string)
        (out : list OverlapRow) (row : OverlapRow)
        (Hrun : findOverlappingSignals spark credSetPath = Some out)
        (Hrow : In row out) :
  let left_set := idCols (left_cols row) in
  let right_set := idCols (right_cols row) in
  exists (L R : smap) (U : list string),
    map_from_entries (mapKeyDedupPolicy spark)
      (credible_set_entries spark credSetPath left_set) = Some L /\
    map_from_entries (mapKeyDedupPolicy spark)
      (credible_set_entries spark credSetPath right_set) = Some R /\
    NoDup U /\
    (forall k, In k U <->
               is_tag_of spark credSetPath left_set k \/
               is_tag_of spark credSetPath right_set k) /\
    List.length (left_logABF row) = List.length U /\
    List.length (right_logABF row) = List.length U /\
    left_logABF row = map (log_abf_or_zero L) U /\
    right_logABF row = map (log_abf_or_zero R) U /\
    (forall k, is_tag_of spark credSetPath left_set k ->
               exists x, log_abf_or_zero L k = Some x /\
                         In (Some k, Some x)
                            (credible_set_entries spark credSetPath left_set)) /\
    (forall k, ~ is_tag_of spark credSetPath left_set k ->
               log_abf_or_zero L k = Some 0) /\
    (forall k, is_tag_of spark credSetPath right_set k ->
               exists x, log_abf_or_zero R k = Some x /\
                         In (Some k, Some x)
                            (credible_set_entries spark credSetPath right_set)) /\
    (forall k, ~ is_tag_of spark credSetPath right_set k ->
               log_abf_or_zero R k = Some 0).
Proof.
  intros left_set right_set.
  unfold findOverlappingSignals in Hrun.
  destruct (credSet spark credSetPath) as [cs|] eqn:Hcs; [| discriminate].
  injection Hrun as <-.
  destruct (output_row_origin cs row Hrow)
    as (l & r & Hl & Hr & _ & _ & Hlc & Hrc & Hleft & Hright).
  destruct (credSet_row spark credSetPath cs l Hcs Hl) as (_ & _ & _ & _ & HL).
  destruct (credSet_row spark credSetPath cs r Hcs Hr) as (_ & _ & _ & _ & HR).
  rewrite <- Hlc in HL. rewrite <- Hrc in HR.
  fold left_set in HL. fold right_set in HR.
  destruct (all_tags_spec _ _ _ _ HL) as (_ & HkL & HvL).
  destruct (all_tags_spec _ _ _ _ HR) as (_ & HkR & HvR).
  set (L := all_tags l) in *. set (R := all_tags r) in *.
  set (U := distinct (map_keys L ++ map_keys R)%list).
  assert (Hl_eq : left_logABF row = map (log_abf_or_zero L) U).
  { rewrite Hleft.
    apply (aligned_values L R L (fun v1 _ => v1)). reflexivity. }
  assert (Hr_eq : right_logABF row = map (log_abf_or_zero R) U).
  { rewrite Hright.
    apply (aligned_values L R R (fun _ v2 => v2)). reflexivity. }
  exists L, R, U.
  split; [exact HL |]. split; [exact HR |].
  split; [apply distinct_NoDup |].
  split.
  { intro k. unfold U. rewrite distinct_In, in_app_iff, HkL, HkR. tauto. }
  split; [rewrite Hl_eq; apply length_map |].
  split; [rewrite Hr_eq; apply length_map |].
  split; [exact Hl_eq |]. split; [exact Hr_eq |].
  split; [| split; [| split]].
  - intros k Hk. apply HkL in Hk. destruct (HvL k Hk) as (x & Hget & Hin).
    exists x. unfold log_abf_or_zero. now rewrite Hget.
  - intros k Hk. unfold log_abf_or_zero.
    rewrite get_absent; [reflexivity |]. now rewrite HkL.
  - intros k Hk. apply HkR in Hk. destruct (HvR k Hk) as (x & Hget & Hin).
    exists x. unfold log_abf_or_zero. now rewrite Hget.
  - intros k Hk. unfold log_abf_or_zero.
    rewrite get_absent; [reflexivity |]. now rewrite HkR.
Qed.
Lemma aligned_vectors_over_union_witness :
  findOverlappingSignals sample_session "credset" = Some [sample_overlap] /\
  In sample_overlap [sample_overlap] /\
  let left_set := idCols (left_cols sample_overlap) in
  let right_set := idCols (right_cols sample_overlap) in
  exists (L R : smap) (U : list string),
    map_from_entries (mapKeyDedupPolicy sample_session)
      (credible_set_entries sample_session "credset" left_set) = Some L /\
    map_from_entries (mapKeyDedupPolicy sample_session)
      (credible_set_entries sample_session "credset" right_set) = Some R /\
    NoDup U /\
    (forall k, In k U <->
               is_tag_of sample_session "credset" left_set k \/
               is_tag_of sample_session "credset" right_set k) /\
    List.length (left_logABF sample_overlap) = List.length U /\
    List.length (right_logABF sample_overlap) = List.length U /\
    left_logABF sample_overlap = map (log_abf_or_zero L) U /\
    right_logABF sample_overlap = map (log_abf_or_zero R) U /\
    (forall k, is_tag_of sample_session "credset" left_set k ->
               exists x, log_abf_or_zero L k = Some x /\
                         In (Some k, Some x)
                            (credible_set_entries sample_session "credset"
                                                  left_set)) /\
    (forall k, ~ is_tag_of sample_session "credset" left_set k ->
               log_abf_or_zero L k = Some 0) /\
    (forall k, is_tag_of sample_session "credset" right_set k ->
               exists x, log_abf_or_zero R k = Some x /\
                         In (Some k, Some x)
                            (credible_set_entries sample_session "credset"
                                                  right_set)) /\
    (forall k, ~ is_tag_of sample_session "credset" right_set k ->
               log_abf_or_zero R k = Some 0).
Proof.
  split; [exact sample_run |].
  split; [now left |].
  apply (aligned_vectors_over_union
           sample_session "credset" [sample_overlap] sample_overlap).
  - exact sample_run.
  - now left.
Defined.

Lemma tag_of_row (spark : SparkSession) (credSetPath : string)
      (cs : list CredSetRow) (c : CredSetRow) (t : string) :
  credSet spark credSetPath = Some cs -> In c cs ->
  tag_variant_id c = Some t ->
  is_tag_of spark credSetPath (idCols (cols c)) t.
Proof.
  intros Hcs Hc Ht.
  destruct (credSet_row spark credSetPath cs c Hcs Hc) as (r & Hr & _ & Htag & _).
  exists r. split; [exact Hr |]. now rewrite <- Htag.
Qed.

(** What the join and the filter on the left guarantee for a row of the
    output. *)
Lemma output_row_canonical (spark : SparkSession) (credSetPath : string)
      (out : list OverlapRow) (row : OverlapRow) :
  findOverlappingSignals spark credSetPath = Some out -> In row out ->
  type (left_cols row) = Some "gwas" /\
  (exists k,
      is_tag_of spark credSetPath (idCols (left_cols row)) k /\
      is_tag_of spark credSetPath (idCols (right_cols row)) k) /\
  (type (right_cols row) = Some "gwas" ->
   (studyKey (right_cols row) <? studyKey (left_cols row)) = true).
Proof.
  intros Hrun Hrow. unfold findOverlappingSignals in Hrun.
  destruct (credSet spark credSetPath) as [cs|] eqn:Hcs; [| discriminate].
  injection Hrun as <-.
  destruct (output_row_origin cs row Hrow)
    as (l & r & Hl & Hr & Hgwas & Hon & Hlc & Hrc & _).
  destruct (join_on_holds l r Hon) as ((t & Htl & Htr) & Hord).
  rewrite Hlc, Hrc. split; [exact Hgwas |]. split; [| exact Hord].
  exists t. split.
  - now apply (tag_of_row spark credSetPath cs l t).
  - now apply (tag_of_row spark credSetPath cs r t).
Qed.

(** C5: every row of the output has a GWAS signal on the left, two sides
    with different identities that share a tag variant, and, when the right
    side is a GWAS signal too, a left [studyKey] above the right one in the
    lexicographic order; so that no two rows compare the same two credible
    sets in opposite directions, nor twice in the same direction. *)
Theorem overlap_pairs_are_canonical
        (spark : SparkSession) (credSetPath : string)
        (out : list OverlapRow)
        (Hrun : findOverlappingSignals spark credSetPath = Some out) :
  (forall row, In row out ->
     type (left_cols row) = Some "gwas" /\
     idCols (left_cols row) <> idCols (right_cols row) /\
     (exists k,
         is_tag_of spark credSetPath (idCols (left_cols row)) k /\
         is_tag_of spark credSetPath (idCols (right_cols row)) k) /\
     (type (right_cols row) = Some "gwas" ->
      (studyKey (right_cols row) <? studyKey (left_cols row)) = true)) /\
  (forall p q, In p out -> In q out ->
     ~ (idCols (left_cols q) = idCols (right_cols p) /\
        idCols (right_cols q) = idCols (left_cols p))) /\
  NoDup (map (fun row => (idCols (left_cols row), idCols (right_cols row)))
             out).
Proof.
  split; [| split].
  - intros row Hrow.
    destruct (output_row_canonical spark credSetPath out row Hrun Hrow)
      as (Hgwas & Htag & Hord).
    repeat split; try assumption.
    intro Hsame. unfold idCols in Hsame.
    injection Hsame as Hkey _ Hty.
    rewrite <- Hty in Hord. specialize (Hord Hgwas).
    rewrite Hkey, ltb_irrefl in Hord. discriminate.
  - intros p q Hp Hq [H1 H2].
    destruct (output_row_canonical spark credSetPath out p Hrun Hp)
      as (Hgp & _ & Hop).
    destruct (output_row_canonical spark credSetPath out q Hrun Hq)
      as (Hgq & _ & Hoq).
    unfold idCols in H1, H2.
    injection H1 as Hk1 _ Ht1. injection H2 as Hk2 _ Ht2.
    rewrite <- Ht1 in Hop. rewrite Ht2 in Hoq.
    specialize (Hop Hgq). specialize (Hoq Hgp).
    rewrite <- Hk1, <- Hk2 in Hop.
    exact (ltb_asym _ _ Hop Hoq).
  - unfold findOverlappingSignals in Hrun.
    destruct (credSet spark credSetPath) as [cs|]; [| discriminate].
    injection Hrun as <-. apply output_keys_NoDup.
Qed.

Lemma overlap_pairs_are_canonical_witness :
  findOverlappingSignals sample_session "credset" = Some [sample_overlap] /\
  (forall row, In row [sample_overlap] ->
     type (left_cols row) = Some "gwas" /\
     idCols (left_cols row) <> idCols (right_cols row) /\
     (exists k,
         is_tag_of sample_session "credset" (idCols (left_cols row)) k /\
         is_tag_of sample_session "credset" (idCols (right_cols row)) k) /\
     (type (right_cols row) = Some "gwas" ->
      (studyKey (right_cols row) <? studyKey (left_cols row)) = true)) /\
  (forall p q, In p [sample_overlap] -> In q [sample_overlap] ->
     ~ (idCols (left_cols q) = idCols (right_cols p) /\
        idCols (right_cols q) = idCols (left_cols p))) /\
  NoDup (map (fun row => (idCols (left_cols row), idCols (right_cols row)))
             [sample_overlap]).
Proof.
  split; [exact sample_run |].
  apply (overlap_pairs_are_canonical sample_session "credset").
  exact sample_run.
Defined.
(** ** When the job goes through *)

Lemma build_map_succeeds (policy : MapKeyDedupPolicy)
      (entries : list (option string * option R)) (acc : smap) :
  (forall e, In e entries -> fst e <> None) ->
  policy = LAST_WIN \/
  (NoDup (map fst entries) /\
   forall k, In (Some k) (map fst entries) -> ~ In k (map_keys acc)) ->
  exists m, build_map policy entries acc = Some m.
Proof.
  revert acc. induction entries as [|[[k|] v] rest IH]; intros acc Hnn Hok;
    simpl.
  - now exists acc.
  - assert (Hnn' : forall e, In e rest -> fst e <> None)
      by (intros e He; apply Hnn; now right).
    destruct (has_key acc k) eqn:Hk.
    + destruct policy.
      * destruct Hok as [Hok | [_ Hok]]; [discriminate |].
        apply has_key_In in Hk. exfalso.
        apply (Hok k); [now left | exact Hk].
      * apply IH; [exact Hnn' | now left].
    + apply IH; [exact Hnn' |].
      destruct Hok as [Hok | [Hnd Hok]]; [now left | right].
      simpl in Hnd. inversion Hnd as [|? ? Hnotin Hnd']; subst.
      split; [exact Hnd' |].
      intros k' Hk' Hin. unfold map_keys in Hin.
      rewrite map_app, in_app_iff in Hin. simpl in Hin.
      destruct Hin as [Hin | [<- | []]].
      * apply (Hok k'); [now right | exact Hin].
      * contradiction.
  - exfalso. apply (Hnn (None, v)); [now left | reflexivity].
Qed.

Lemma all_rows_succeeds {A B : Type} (f : A -> option B) (rows : list A) :
  (forall r, In r rows -> exists b, f r = Some b) ->
  exists bs, all_rows f rows = Some bs.
Proof.
  induction rows as [|r rows IH]; simpl; intro H.
  - now exists [].
  - destruct (H r (or_introl eq_refl)) as (b & ->).
    destruct IH as (bs & ->); [intros r' Hr'; apply H; now right |].
    now exists (b :: bs).
Qed.

(** The job gives a result as soon as every record with a [logABF] has a
    tag variant and, unless the last value wins, no credible set lists a
    tag variant twice. *)
Lemma findOverlappingSignals_succeeds
      (spark : SparkSession) (credSetPath : string) :
  (forall r, In r (read_parquet spark credSetPath) ->
             Parquet.logABF r <> None -> Parquet.tag_variant_id r <> None) ->
  mapKeyDedupPolicy spark = LAST_WIN \/
  (forall i, NoDup (map fst (credible_set_entries spark credSetPath i))) ->
  exists out, findOverlappingSignals spark credSetPath = Some out.
Proof.
  intros Htag Hdup. unfold findOverlappingSignals, credSet.
  match goal with
  | |- context [all_rows ?f ?rows] =>
      destruct (all_rows_succeeds f rows) as (cs & ->)
  end.
  - intros r Hr. unfold map_from_entries.
    destruct (build_map_succeeds (mapKeyDedupPolicy spark)
                (credible_set_entries spark credSetPath
                                      (idCols (side_cols r))) [])
      as (m & Hm).
    + intros e He. unfold credible_set_entries, credible_set in He.
      apply in_map_iff in He as (r' & <- & Hr').
      apply filter_In in Hr' as [Hr' _].
      apply filter_In in Hr' as [Hr' Hnn]. simpl.
      apply Htag; [exact Hr' |].
      destruct (Parquet.logABF r'); [discriminate | discriminate].
    + destruct Hdup as [Hdup | Hdup]; [now left | right].
      split; [apply Hdup | intros k _ []].
    + unfold credible_set_entries, credible_set in Hm.
      unfold collect_list_over. rewrite Hm. simpl. eauto.
  - simpl. eauto.
Qed.
End Claims.

(** * Further properties *)

(** ** Which pairs [colocalisation] scores *)

Lemma cells_or_null (a : list (option R)) :
  (exists v, a = cells v) \/ In None a.
Proof.
  induction a as [|[x|] a IH].
  - left. now exists [].
  - destruct IH as [(v & ->) | H].
    + left. now exists (x :: v).
    + right. now right.
  - right. now left.
Qed.

Lemma sum_null_of_unequal_lengths (a b : list (option R)) :
  List.length a <> List.length b ->
  In None (F.transform (F.arrays_zip a b) (fun x => F.add (fst x) (snd x))).
Proof.
  unfold F.transform. revert b.
  induction a as [|x a IH]; intros [|y b] Hlen; simpl in *;
    try congruence.
  - now left.
  - left. apply add_null_r.
  - right. apply IH. congruence.
Qed.

Lemma null_vector_not_kept (row : OverlapRow) :
  In None (left_logABF row) \/ In None (right_logABF row) ->
  coloc.not_degenerate row = false.
Proof.
  intro H. unfold coloc.not_degenerate, coloc.sumlogsum,
             coloc.logsum1, coloc.logsum2.
  destruct H as [H | H]; rewrite (logsum_with_null _ H).
  - reflexivity.
  - now rewrite add_null_r.
Qed.

Lemma unequal_lengths_not_kept (row : OverlapRow) :
  List.length (left_logABF row) <> List.length (right_logABF row) ->
  coloc.not_degenerate row = false.
Proof.
  intro H. unfold coloc.not_degenerate, coloc.logsum12, coloc.sum_logABF.
  rewrite (logsum_with_null _ (sum_null_of_unequal_lengths _ _ H)).
  now destruct (coloc.sumlogsum row).
Qed.

(** X1: [colocalisation] emits no row for a pair one of whose vectors
    holds a NULL, is empty, or is not as long as the other ([arrays_zip]
    pads the shorter one with NULL): the condition of the filter is then
    NULL, and the rows of the other pairs are what they are without it. *)
Theorem null_or_misaligned_pairs_are_dropped
        (pre post : list OverlapRow) (row : OverlapRow) (p1 p2 p12 : R)
        (Hbad : In None (left_logABF row) \/ In None (right_logABF row) \/
                List.length (left_logABF row)
                <> List.length (right_logABF row) \/
                left_logABF row = [] \/ right_logABF row = []) :
  (coloc.sumlogsum row = None \/ coloc.logsum12 row = None) /\
  F.neq (coloc.sumlogsum row) (coloc.logsum12 row) = None /\
  coloc.not_degenerate row = false /\
  coloc.colocalisation (pre ++ row :: post) p1 p2 p12
  = coloc.colocalisation (pre ++ post) p1 p2 p12.
Proof.
  assert (Hnull : coloc.sumlogsum row = None \/ coloc.logsum12 row = None).
  { unfold coloc.sumlogsum, coloc.logsum1, coloc.logsum2, coloc.logsum12,
      coloc.sum_logABF.
    destruct Hbad as [H | [H | [H | [H | H]]]].
    - left. now rewrite (logsum_with_null _ H).
    - left. rewrite (logsum_with_null _ H). apply add_null_r.
    - right. apply logsum_with_null.
      now apply sum_null_of_unequal_lengths.
    - left. now rewrite H, logsum_nil.
    - left. rewrite H, logsum_nil. apply add_null_r. }
  assert (Hcond : F.neq (coloc.sumlogsum row) (coloc.logsum12 row) = None).
  { destruct Hnull as [-> | ->]; [reflexivity |].
    now destruct (coloc.sumlogsum row). }
  assert (Hdrop : coloc.not_degenerate row = false).
  { unfold coloc.not_degenerate. now rewrite Hcond. }
  split; [exact Hnull |]. split; [exact Hcond |]. split; [exact Hdrop |].
  now apply dropped_row_contributes_nothing.
Qed.

Lemma null_or_misaligned_pairs_are_dropped_witness :
  In None (left_logABF pair_with_null) /\
  F.neq (coloc.sumlogsum pair_with_null) (coloc.logsum12 pair_with_null)
  = None /\
  coloc.not_degenerate pair_with_null = false /\
  coloc.colocalisation ([pair_flat] ++ pair_with_null :: [pair_flat])
                       (/ 2) (/ 2) (/ 2)
  = coloc.colocalisation ([pair_flat] ++ [pair_flat]) (/ 2) (/ 2) (/ 2).
Proof.
  assert (Hin : In None (left_logABF pair_with_null))
    by (right; now left).
  destruct (null_or_misaligned_pairs_are_dropped
              [pair_flat] [pair_flat] pair_with_null (/ 2) (/ 2) (/ 2)
              (or_introl Hin))
    as (_ & Hcond & Hdrop & Hout).
  split; [exact Hin |]. split; [exact Hcond |].
  split; [exact Hdrop | exact Hout].
Defined.

(** ** [logsum] and [posteriors] as functions *)





(** X6: [logsum] is NULL exactly on the empty array and on the arrays that
    hold a NULL; [posteriors] keeps the length of its array and is NULL
    everywhere as soon as the array holds one NULL. *)
Theorem logsum_null_iff (v : list (option R)) :
  (coloc.logsum v = None <-> v = [] \/ In None v) /\
  List.length (coloc.posteriors v) = List.length v /\
  (In None v ->
   coloc.posteriors v = repeat None (List.length v)).
Proof.
  split; [| split].
  - split.
    + intro Hnull.
      destruct (cells_or_null v) as [(w & ->) | H]; [| now right].
      destruct w as [|a w]; [now left |].
      rewrite logsum_cells in Hnull; discriminate.
    + intros [-> | H]; [reflexivity | now apply logsum_with_null].
  - unfold coloc.posteriors, F.transform. apply length_map.
  - intro H. unfold coloc.posteriors, F.transform.
    rewrite (logsum_with_null v H). clear H.
    induction v as [|x v IH]; [reflexivity |].
    simpl. now rewrite sub_null_r, IH.
Qed.

(** ** More on [findOverlappingSignals] *)

Section MoreOverlaps.
Import SQL.
Import overlaps.
Open Scope string_scope.

Lemma filter_idem {A : Type} (f : A -> bool) (rows : list A) :
  filter f (filter f rows) = filter f rows.
Proof.
  induction rows as [|r rows IH]; simpl; [reflexivity |].
  destruct (f r) eqn:E; simpl; [rewrite E; now f_equal | exact IH].
Qed.

(** X9: the records without a [logABF] play no part: the result is the one
    the same files give once these records are taken out. *)
Theorem records_without_logABF_are_ignored
        (spark : SparkSession) (credSetPath : string) :
  findOverlappingSignals (without_null_logABF spark) credSetPath
  = findOverlappingSignals spark credSetPath.
Proof.
  unfold findOverlappingSignals, credSet, without_null_logABF.
  cbn [read_parquet mapKeyDedupPolicy].
  now rewrite filter_idem.
Qed.

Lemma all_rows_map {A B : Type} (f : A -> option B)
      (rows : list A) (bs : list B) :
  all_rows f rows = Some bs -> map f rows = map Some bs.
Proof.
  revert bs. induction rows as [|r rows IH]; simpl; intros bs H.
  - now injection H as <-.
  - destruct (f r) as [b|]; [| discriminate].
    destruct (all_rows f rows) as [bs0|]; [| discriminate].
    injection H as <-. simpl. f_equal. now apply IH.
Qed.

Lemma all_rows_each {A B : Type} (f : A -> option B)
      (rows : list A) (bs : list B) (r : A) :
  all_rows f rows = Some bs -> In r rows ->
  exists b, In b bs /\ f r = Some b.
Proof.
  intros H Hin. apply all_rows_map in H.
  assert (Hf : In (f r) (map Some bs)) by (rewrite <- H; now apply in_map).
  apply in_map_iff in Hf as (b & Hb & Hin'). now exists b.
Qed.

Lemma join_on_iff (l r : CredSetRow) :
  F.holds (join_on l r) = true <->
  (exists t, tag_variant_id l = Some t /\ tag_variant_id r = Some t) /\
  ((exists ty, type (cols r) = Some ty /\ ty <> "gwas") \/
   (studyKey (cols r) <? studyKey (cols l)) = true).
Proof.
  unfold join_on, eq, neq, gt.
  destruct (tag_variant_id l) as [tl|], (tag_variant_id r) as [tr|];
    destruct (type (cols r)) as [ty|];
    destruct (studyKey (cols r) <? studyKey (cols l)) eqn:Hlt;
    simpl;
    try destruct (String.eqb_spec tl tr) as [-> | Htag];
    try destruct (String.eqb_spec ty "gwas") as [-> | Hty];
    simpl; split;
    try discriminate;
    try (intros [(t & H1 & H2) _]; congruence);
    try (intros _; split; [now exists tr | now right]);
    try (intros _; split; [now exists tr | left; now exists ty]);
    try (intros [_ [(ty' & H1 & H2) | H]]; congruence).
Qed.

Lemma dropDuplicates_complete {A K : Type} (same_key : K -> K -> bool)
      (key : A -> K) (rows : list A) (r : A) :
  (forall a b, same_key a b = true <-> a = b) ->
  In r rows ->
  exists r', In r' (dropDuplicates same_key key rows) /\ key r' = key r.
Proof.
  intros Hsame. induction rows as [|r0 rows IH]; simpl; [tauto |].
  intros [<- | Hin].
  - exists r0. split; [now left | reflexivity].
  - destruct (IH Hin) as (r' & Hr' & Hkey).
    destruct (same_key (key r') (key r0)) eqn:E.
    + apply Hsame in E. exists r0. split; [now left | congruence].
    + exists r'. split; [| exact Hkey].
      right. apply filter_In. split; [exact Hr' | now rewrite E].
Qed.

(** The row of [credSet] a record with a [logABF] gives. *)
Lemma credSet_of_record (spark : SparkSession) (credSetPath : string)
      (cs : list CredSetRow) (i : ids) (r : Parquet.row) :
  credSet spark credSetPath = Some cs ->
  In r (credible_set spark credSetPath i) ->
  exists c, In c cs /\ cols c = side_cols r /\
            tag_variant_id c = Parquet.tag_variant_id r /\
            idCols (cols c) = i.
Proof.
  unfold credSet, credible_set. intros Hcs Hr.
  apply filter_In in Hr as [Hrows Hid]. apply same_ids_eq in Hid.
  destruct (all_rows_each _ _ _ r Hcs Hrows) as (c & Hc & Hf).
  destruct (map_from_entries _ _) as [tags|]; [| discriminate].
  simpl in Hf. injection Hf as <-. exists
    {| cols := side_cols r;
       tag_variant_id := Parquet.tag_variant_id r;
       all_tags := tags |}.
  now repeat split.
Qed.

(** X11: which comparisons are made.  The output has a row for the
    credible sets with identities [i] (left) and [j] (right) exactly when
    they hold a GWAS record of [i] and a record of [j] with the same tag
    variant, the second being no GWAS record or having the smaller
    [studyKey]. *)
Theorem compared_iff_eligible
        (spark : SparkSession) (credSetPath : string)
        (out : list OverlapRow) (i j : ids)
        (Hrun : findOverlappingSignals spark credSetPath = Some out) :
  (exists row, In row out /\
               idCols (left_cols row) = i /\ idCols (right_cols row) = j) <->
  eligible spark credSetPath i j.
Proof.
  unfold findOverlappingSignals in Hrun.
  destruct (credSet spark credSetPath) as [cs|] eqn:Hcs; [| discriminate].
  injection Hrun as <-. split.
  - intros (row & Hrow & <- & <-).
    destruct (output_row_origin cs row Hrow)
      as (l & r & Hl & Hr & Hgwas & Hon & Hlc & Hrc & _).
    apply join_on_iff in Hon as ((t & Htl & Htr) & Hord).
    destruct (credSet_row spark credSetPath cs l Hcs Hl)
      as (rl & Hrl & Hcl & Htagl & _).
    destruct (credSet_row spark credSetPath cs r Hcs Hr)
      as (rr & Hrr & Hcr & Htagr & _).
    exists rl, rr, t. rewrite Hlc, Hrc.
    split; [exact Hrl |]. split; [exact Hrr |].
    split; [rewrite Hcl in Hgwas; exact Hgwas |].
    split; [congruence |]. split; [congruence |].
    rewrite Hcl, Hcr in Hord. exact Hord.
  - intros (rl & rr & t & Hrl & Hrr & Hgwas & Htl & Htr & Hord).
    destruct (credSet_of_record spark credSetPath cs i rl Hcs Hrl)
      as (cl & Hcl & Hcolsl & Htagl & Hidl).
    destruct (credSet_of_record spark credSetPath cs j rr Hcs Hrr)
      as (cr & Hcr & Hcolsr & Htagr & Hidr).
    assert (Hon : F.holds (join_on cl cr) = true).
    { apply join_on_iff. split.
      - exists t. split; congruence.
      - rewrite Hcolsl, Hcolsr. exact Hord. }
    set (p := {| peak_left := cols cl; left_all_tags := all_tags cl;
                 peak_right := cols cr; right_all_tags := all_tags cr |}).
    assert (Hp : In p
      (map (fun lr =>
              {| peak_left := cols (fst lr);
                 left_all_tags := all_tags (fst lr);
                 peak_right := cols (snd lr);
                 right_all_tags := all_tags (snd lr) |})
           (inner_join
              (filter (fun r => F.holds (eq (type (cols r)) (Some "gwas")))
                      cs) cs))).
    { apply in_map_iff. exists (cl, cr). split; [reflexivity |].
      unfold inner_join. apply in_flat_map. exists cl. split.
      - apply filter_In. split; [exact Hcl |].
        rewrite Hcolsl. simpl. rewrite Hgwas. reflexivity.
      - apply in_map_iff. exists cr. split; [reflexivity |].
        apply filter_In. now split. }
    destruct (dropDuplicates_complete same_peak peak_key _ p same_peak_eq Hp)
      as (p' & Hp' & Hkey).
    pose proof (f_equal fst Hkey) as Hk1.
    pose proof (f_equal snd Hkey) as Hk2.
    unfold peak_key in Hk1, Hk2. cbn [fst snd] in Hk1, Hk2.
    eexists. split.
    + unfold overlappingPeaksWithArrays, overlappingPeaks.
      apply in_map_iff. exists p'. split; [reflexivity | exact Hp'].
    + cbn [left_cols right_cols]. rewrite Hk1, Hk2. unfold p.
      cbn [peak_left peak_right]. now split.
Qed.
Lemma compared_iff_eligible_witness :
  findOverlappingSignals sample_session "credset" = Some [sample_overlap] /\
  ((exists row, In row [sample_overlap] /\
                idCols (left_cols row) = idCols (left_cols sample_overlap) /\
                idCols (right_cols row) = idCols (right_cols sample_overlap))
   <-> eligible sample_session "credset"
                (idCols (left_cols sample_overlap))
                (idCols (right_cols sample_overlap))).
Proof.
  split; [exact sample_run |].
  apply (compared_iff_eligible sample_session "credset" [sample_overlap]).
  exact sample_run.
Defined.

(** X12: two GWAS signals of one study (of one [studyKey]) are never
    compared with each other. *)
Theorem gwas_signals_of_one_study_never_compared
        (spark : SparkSession) (credSetPath : string)
        (out : list OverlapRow) (row : OverlapRow)
        (Hrun : findOverlappingSignals spark credSetPath = Some out)
        (Hrow : In row out)
        (Hright : type (right_cols row) = Some "gwas") :
  studyKey (left_cols row) <> studyKey (right_cols row).
Proof.
  destruct (output_row_canonical spark credSetPath out row Hrun Hrow)
    as (_ & _ & Hord).
  specialize (Hord Hright). intro Heq.
  rewrite Heq, ltb_irrefl in Hord. discriminate.
Qed.

Lemma gwas_signals_of_one_study_never_compared_witness :
  findOverlappingSignals sample_session "credset" = Some [sample_overlap] /\
  In sample_overlap [sample_overlap] /\
  type (right_cols sample_overlap) = Some "gwas" /\
  studyKey (left_cols sample_overlap) <> studyKey (right_cols sample_overlap).
Proof.
  split; [exact sample_run |]. split; [now left |]. split; [reflexivity |].
  apply (gwas_signals_of_one_study_never_compared
           sample_session "credset" [sample_overlap] sample_overlap).
  - exact sample_run.
  - now left.
  - reflexivity.
Defined.

(** X13: the columns of each side of a row of the output are those of one
    record of the files, a record with a [logABF]; the two vectors of the
    row hold no NULL. *)
Theorem output_columns_come_from_records
        (spark : SparkSession) (credSetPath : string)
        (out : list OverlapRow) (row : OverlapRow)
        (Hrun : findOverlappingSignals spark credSetPath = Some out)
        (Hrow : In row out) :
  (exists rl rr : Parquet.row,
      In rl (read_parquet spark credSetPath) /\
      In rr (read_parquet spark credSetPath) /\
      Parquet.logABF rl <> None /\ Parquet.logABF rr <> None /\
      left_cols row = side_cols rl /\ right_cols row = side_cols rr) /\
  ~ In None (left_logABF row) /\ ~ In None (right_logABF row).
Proof.
  unfold findOverlappingSignals in Hrun.
  destruct (credSet spark credSetPath) as [cs|] eqn:Hcs; [| discriminate].
  injection Hrun as <-.
  destruct (output_row_origin cs row Hrow)
    as (l & r & Hl & Hr & _ & _ & Hlc & Hrc & Hleft & Hright).
  assert (Hrec : forall c, In c cs ->
            exists rec, In rec (read_parquet spark credSetPath) /\
                        Parquet.logABF rec <> None /\
                        cols c = side_cols rec).
  { intros c Hc.
    destruct (credSet_row spark credSetPath cs c Hcs Hc)
      as (rec & Hin & Hcols & _).
    unfold credible_set in Hin. apply filter_In in Hin as [Hin _].
    apply filter_In in Hin as [Hin Hnn].
    exists rec. repeat split; try assumption.
    destruct (Parquet.logABF rec); [discriminate | discriminate]. }
  split; [| split].
  - destruct (Hrec l Hl) as (rl & Hrl & Hnl & Hcl).
    destruct (Hrec r Hr) as (rr & Hrr & Hnr & Hcr).
    exists rl, rr. repeat split; try assumption; congruence.
  - rewrite Hleft, map_values_zip. intro Hin.
    apply in_map_iff in Hin as (k & Hk & _).
    unfold coalesce, F.lit in Hk.
    destruct (get (all_tags l) k); discriminate.
  - rewrite Hright, map_values_zip. intro Hin.
    apply in_map_iff in Hin as (k & Hk & _).
    unfold coalesce, F.lit in Hk.
    destruct (get (all_tags r) k); discriminate.
Qed.

Lemma output_columns_come_from_records_witness :
  findOverlappingSignals sample_session "credset" = Some [sample_overlap] /\
  In sample_overlap [sample_overlap] /\
  (exists rl rr : Parquet.row,
      In rl (read_parquet sample_session "credset") /\
      In rr (read_parquet sample_session "credset") /\
      Parquet.logABF rl <> None /\ Parquet.logABF rr <> None /\
      left_cols sample_overlap = side_cols rl /\
      right_cols sample_overlap = side_cols rr) /\
  ~ In None (left_logABF sample_overlap) /\
  ~ In None (right_logABF sample_overlap).
Proof.
  split; [exact sample_run |]. split; [now left |].
  apply (output_columns_come_from_records
           sample_session "credset" [sample_overlap] sample_overlap).
  - exact sample_run.
  - now left.
Defined.

(** X14: [studyKey] leaves out the columns that are NULL, so it cannot
    tell a value of [phenotype_id] from the same value of [bio_feature]:
    two records that differ only in which of the two columns holds it have
    the same identity, and are of one credible set. *)
Theorem studyKey_skips_null_columns
        (r1 r2 : Parquet.row) (x : string)
        (Htype : Parquet.type r1 = Parquet.type r2)
        (Hstudy : Parquet.study_id r1 = Parquet.study_id r2)
        (Hlead : Parquet.lead_variant_id r1 = Parquet.lead_variant_id r2)
        (Hphen1 : Parquet.phenotype_id r1 = Some x)
        (Hbio1 : Parquet.bio_feature r1 = None)
        (Hphen2 : Parquet.phenotype_id r2 = None)
        (Hbio2 : Parquet.bio_feature r2 = Some x) :
  studyKey (side_cols r1) = studyKey (side_cols r2) /\
  idCols (side_cols r1) = idCols (side_cols r2) /\
  same_ids (idCols (side_cols r1)) (idCols (side_cols r2)) = true.
Proof.
  assert (Hkey : studyKey (side_cols r1) = studyKey (side_cols r2)).
  { unfold side_cols. cbn [studyKey]. unfold concat_ws.
    rewrite Htype, Hstudy, Hphen1, Hbio1, Hphen2, Hbio2.
    destruct (Parquet.type r2), (Parquet.study_id r2); reflexivity. }
  assert (Hids : idCols (side_cols r1) = idCols (side_cols r2)).
  { unfold idCols. rewrite Hkey. unfold side_cols.
    cbn [lead_variant_id type]. now rewrite Htype, Hlead. }
  split; [exact Hkey |]. split; [exact Hids |].
  now apply same_ids_eq.
Qed.
Lemma studyKey_skips_null_columns_witness :
  let r1 := molecular_record (Some "LIVER") None in
  let r2 := molecular_record None (Some "LIVER") in
  Parquet.phenotype_id r1 = Some "LIVER" /\
  Parquet.bio_feature r2 = Some "LIVER" /\
  studyKey (side_cols r1) = studyKey (side_cols r2) /\
  idCols (side_cols r1) = idCols (side_cols r2) /\
  same_ids (idCols (side_cols r1)) (idCols (side_cols r2)) = true.
Proof.
  split; [reflexivity |]. split; [reflexivity |].
  apply (studyKey_skips_null_columns
           (molecular_record (Some "LIVER") None)
           (molecular_record None (Some "LIVER")) "LIVER");
    reflexivity.
Defined.

(** X10: [findOverlappingSignals] gives its result, [map_from_entries]
    finding nothing to fail on, as soon as every record with a [logABF]
    has a tag variant and, unless the session lets the last value win, no
    credible set lists a tag variant twice. *)
Theorem findOverlappingSignals_succeeds_on_clean_tags
        (spark : SparkSession) (credSetPath : string)
        (Htag : forall r, In r (read_parquet spark credSetPath) ->
                          Parquet.logABF r <> None ->
                          Parquet.tag_variant_id r <> None)
        (Hdup : mapKeyDedupPolicy spark = LAST_WIN \/
                forall i, NoDup (map fst (credible_set_entries
                                            spark credSetPath i))) :
  exists (cs : list CredSetRow) (out : list OverlapRow),
    credSet spark credSetPath = Some cs /\
    findOverlappingSignals spark credSetPath = Some out /\
    out = overlappingPeaksWithArrays (overlappingPeaks cs).
Proof.
  destruct (findOverlappingSignals_succeeds spark credSetPath Htag Hdup)
    as (out & Hout).
  unfold findOverlappingSignals in Hout.
  destruct (credSet spark credSetPath) as [cs |] eqn:Hcs; [| discriminate].
  exists cs, out. split; [reflexivity |].
  unfold findOverlappingSignals. rewrite Hcs.
  split; [exact Hout |]. simpl in Hout. congruence.
Qed.

Lemma findOverlappingSignals_succeeds_on_clean_tags_witness :
  mapKeyDedupPolicy sample_session_last_win = LAST_WIN /\
  exists (cs : list CredSetRow) (out : list OverlapRow),
    credSet sample_session_last_win "credset" = Some cs /\
    findOverlappingSignals sample_session_last_win "credset" = Some out /\
    out = overlappingPeaksWithArrays (overlappingPeaks cs).
Proof.
  split; [reflexivity |].
  apply (findOverlappingSignals_succeeds_on_clean_tags
           sample_session_last_win "credset").
  - intros r Hr _. simpl in Hr.
    destruct Hr as [<- | [<- | [<- | [<- | []]]]]; discriminate.
  - left. reflexivity.
Defined.

End MoreOverlaps.
